(** * Neighbourhood collaborative filtering (class [uuCF])

    Shallow embedding of the class [uuCF] of
    [Lab_Tasks/Recommendation_System/Bach_Paper_Testing.ipynb] (methods
    [__init__], [fit], [predict_rating], [recommend]) and of its older
    variant in [Book_NeighborhoodBaseCF.ipynb] (methods [fit], [pred]),
    together with the numpy / scipy / scikit-learn operations they call,
    and of the evaluation cells of the notebooks (RMSE, HR@10, the
    function [compute_hr_at_10] of [Bach_Paper.ipynb], item-item
    filtering by exchanging the id columns).

    Conventions of the embedding.
    - A float64 scalar is an extended real: a real number, an infinity or
      NaN.  Rounding, overflow and the sign of zero are abstracted away;
      the special values arise exactly where IEEE division produces them.
    - [Y_data] is a float64 array of shape (n, 3), as the [astype(int)]
      conversions of its id columns presuppose; a row is
      (user id, item id, rating) with natural-number ids and a real rating.
      (An integer array is not modelled: there the assignment to
      [Ybar[:, 2]] would truncate the centred values.)
    - A scipy sparse matrix is its shape together with the finite map from
      the stored positions to the stored values.
    - Python exceptions are the constructors of [exn]; a method that can
      raise returns a [result].
    - The module [B64] runs [__init__] and [fit] with the default
      similarity function on IEEE binary64 numbers (the primitive floats),
      operation by operation and in the order of the libraries; it shows
      what rounding does to a statement of exact arithmetic.  A property
      that float64 has only where its sums are exact is stated for
      [integer_ratings]. *)

From Corelib Require PrimFloat.
From Stdlib Require Import Reals Lra.
From stdpp Require Import base option list gmap sorting.

(** ** Python exceptions *)

Inductive exn := ValueError | IndexError | TypeError | AttributeError.

Inductive result (A : Type) :=
  | Ok (a : A)
  | Raise (e : exn).
Arguments Ok {A} a.
Arguments Raise {A} e.

#[global] Instance result_ret : MRet result := @Ok.
#[global] Instance result_bind : MBind result := fun A B f m =>
  match m with
  | Ok a => f a
  | Raise e => Raise e
  end.

(** [l[i]] for a non-negative index: IndexError when out of bounds. *)
Definition getitem {A} (l : list A) (i : nat) : result A :=
  match l !! i with
  | Some x => Ok x
  | None => Raise IndexError
  end.

(** [l[idx]] for an integer index array [idx]. *)
Fixpoint take_ {A} (l : list A) (idx : list nat) : result (list A) :=
  match idx with
  | [] => Ok []
  | i :: idx' => x ← getitem l i; xs ← take_ l idx'; Ok (x :: xs)
  end.

(** ** float64 scalars *)

#[global] Instance Rle_decision : RelDecision Rle := Rle_dec.
#[global] Instance Rlt_decision : RelDecision Rlt := Rlt_dec.
#[global] Instance Req_decision : EqDecision R := Req_dec_T.
#[global] Instance R_inhabited : Inhabited R := populate 0%R.

Inductive float64 := Finite (r : R) | PInf | NInf | NaN.

#[global] Instance float64_inhabited : Inhabited float64 := populate (Finite 0).

Definition is_finite (x : float64) : Prop :=
  match x with Finite _ => True | _ => False end.

(** Sign of a non-NaN scalar (zero counts as positive: the sign of zero is
    not tracked). *)
Definition nonneg (x : float64) : bool :=
  match x with
  | Finite r => bool_decide (0 <= r)%R
  | PInf => true
  | _ => false
  end.

Definition inf_of (positive : bool) : float64 :=
  if positive then PInf else NInf.

Definition fneg (x : float64) : float64 :=
  match x with
  | Finite r => Finite (- r)
  | PInf => NInf
  | NInf => PInf
  | NaN => NaN
  end.

Definition fadd (x y : float64) : float64 :=
  match x, y with
  | NaN, _ | _, NaN => NaN
  | Finite a, Finite b => Finite (a + b)
  | PInf, NInf | NInf, PInf => NaN
  | PInf, _ | _, PInf => PInf
  | NInf, _ | _, NInf => NInf
  end.

Definition fsub (x y : float64) : float64 := fadd x (fneg y).

Definition is_zero (x : float64) : bool :=
  match x with
  | Finite r => bool_decide (r = 0%R)
  | _ => false
  end.

Definition fmul (x y : float64) : float64 :=
  match x, y with
  | NaN, _ | _, NaN => NaN
  | Finite a, Finite b => Finite (a * b)
  | _, _ =>
      if is_zero x || is_zero y then NaN
      else inf_of (eqb (nonneg x) (nonneg y))
  end.

Definition fdiv (x y : float64) : float64 :=
  match x, y with
  | NaN, _ | _, NaN => NaN
  | Finite a, Finite b =>
      if bool_decide (b = 0%R) then
        if bool_decide (a = 0%R) then NaN else inf_of (nonneg x)
      else Finite (a / b)
  | Finite _, _ => Finite 0
  | _, Finite _ => inf_of (eqb (nonneg x) (nonneg y))
  | _, _ => NaN
  end.

Definition fabs (x : float64) : float64 :=
  match x with
  | Finite r => Finite (Rabs r)
  | PInf | NInf => PInf
  | NaN => NaN
  end.

Definition fsqrt (x : float64) : float64 :=
  match x with
  | Finite r => if bool_decide (0 <= r)%R then Finite (sqrt r) else NaN
  | PInf => PInf
  | _ => NaN
  end.

(** Python's [a < b] on floats: false as soon as one side is NaN. *)
Definition flt (x y : float64) : bool :=
  match x, y with
  | NaN, _ | _, NaN => false
  | Finite a, Finite b => bool_decide (a < b)%R
  | NInf, NInf | PInf, PInf => false
  | NInf, _ | _, PInf => true
  | _, _ => false
  end.

(** The order numpy sorts by: as [<=], with NaN after everything else. *)
Definition np_le (x y : float64) : bool :=
  match x, y with
  | _, NaN => true
  | NaN, _ => false
  | _, _ => negb (flt y x)
  end.

(** [a.sum()] of a float array. *)
Definition fsum (l : list float64) : float64 := foldr fadd (Finite 0) l.

Definition Rsum (l : list R) : R := foldr Rplus 0%R l.

(** [np.nan_to_num]: NaN becomes 0, the infinities become the largest
    finite doubles. *)
Definition DBL_MAX : R := ((2 - / 2 ^ 52) * 2 ^ 1023)%R.

Definition nan_to_num (x : float64) : float64 :=
  match x with
  | Finite r => Finite r
  | NaN => Finite 0
  | PInf => Finite DBL_MAX
  | NInf => Finite (- DBL_MAX)
  end.

(** ** numpy operations on one-dimensional arrays *)

(** Insertion of [x] in front of the first element it is in relation with;
    iterated from the right it is a stable sort. *)
Fixpoint insert_by {A} (le : A → A → bool) (x : A) (l : list A) : list A :=
  match l with
  | [] => [x]
  | y :: l' => if le x y then x :: l else y :: insert_by le x l'
  end.

Definition sort_by {A} (le : A → A → bool) (l : list A) : list A :=
  foldr (insert_by le) [] l.

(** [np.argsort(a)]: the positions of [a], ordered by increasing value.
    numpy leaves the order of equal values unspecified; here they keep
    their relative order. *)
Definition argsort (a : list float64) : list nat :=
  (sort_by (λ p q, np_le p.2 q.2) (zip (seq 0 (length a)) a)).*1.

(** The slice [l[-k:]] for [k >= 0]; [l[-0:]] is [l[0:]], the whole list. *)
Definition slice_last {A} (k : nat) (l : list A) : list A :=
  match k with
  | 0 => l
  | _ => drop (length l - k) l
  end.

(** [np.where(col == x)[0]]: the positions holding [x]. *)
Definition where_eq (col : list nat) (x : nat) : list nat :=
  (filter (λ p, p.2 = x) (zip (seq 0 (length col)) col)).*1.

(** [np.bincount(x)] and [np.bincount(x, weights=w)]: one bin per value in
    [0, max(x)]. *)
Definition nbins (x : list nat) : nat :=
  match x with
  | [] => 0
  | _ => S (max_list x)
  end.

Definition bincount (x : list nat) : list nat :=
  (λ i, length (filter (λ v, v = i) x)) <$> seq 0 (nbins x).

Definition bincount_weights (x : list nat) (w : list R) : list R :=
  (λ i, Rsum (filter (λ p, p.1 = i) (zip x w)).*2) <$> seq 0 (nbins x).

(** ** scipy sparse matrices *)

Record coo_matrix := {
  coo_shape : nat * nat;
  coo_entries : list (nat * nat * float64)
}.

Record csr_matrix := {
  shape : nat * nat;
  stored : gmap (nat * nat) float64
}.

(** [sparse.coo_matrix((data, (row, col)), shape)]. *)
Definition mk_coo (data : list float64) (row col : list nat)
    (shp : nat * nat) : coo_matrix :=
  {| coo_shape := shp; coo_entries := zip (zip row col) data |}.

(** [M.tocsr()]: entries at the same position are summed, explicit zeros
    are kept. *)
Definition add_entry (e : nat * nat * float64)
    (m : gmap (nat * nat) float64) : gmap (nat * nat) float64 :=
  <[e.1 := match m !! e.1 with Some w => fadd w e.2 | None => e.2 end]> m.

Definition tocsr (M : coo_matrix) : csr_matrix :=
  {| shape := coo_shape M; stored := foldr add_entry ∅ (coo_entries M) |}.

(** [M.T]. *)
Definition transpose (M : csr_matrix) : csr_matrix :=
  {| shape := prod_swap (shape M); stored := kmap prod_swap (stored M) |}.

(** [M[i, j]] as a scalar: a position that is not stored reads 0. *)
Definition entry (M : csr_matrix) (i j : nat) : float64 :=
  default (Finite 0) (stored M !! (i, j)).

(** [M[i, cols]]: the 1 x len(cols) sparse row made of the listed columns
    of row [i]; IndexError when [i] or a column is outside the shape. *)
Definition getrow (M : csr_matrix) (i : nat) (cols : list nat)
    : result (list (option float64)) :=
  if decide (i < (shape M).1) then
    if decide (Forall (λ c, c < (shape M).2) cols) then
      Ok ((λ c, stored M !! (i, c)) <$> cols)
    else Raise IndexError
  else Raise IndexError.

(** [(r * v).sum()] for a sparse row [r] and a dense vector [v]: the
    product runs over the stored entries of [r] only. *)
Definition sparse_row_dot (r : list (option float64)) (v : list float64)
    : float64 :=
  fsum (omap (λ p, (λ x, fmul x p.2) <$> p.1) (zip r v)).

(** ** sklearn.metrics.pairwise.cosine_similarity *)

(** Sum of the squares of the stored entries of row [i]. *)
Definition row_sumsq (X : csr_matrix) (i : nat) : float64 :=
  fsum (omap (λ c, (λ v, fmul v v) <$> stored X !! (i, c))
             (seq 0 (shape X).2)).

(** [normalize(X)]: every row is divided by its Euclidean norm; a row whose
    sum of squares is 0.0 is skipped. *)
Definition normalize (X : csr_matrix) : csr_matrix :=
  {| shape := shape X;
     stored := map_imap (λ p v,
                 let s := row_sumsq X p.1 in
                 Some (if is_zero s then v else fdiv v (fsqrt s)))
               (stored X) |}.

(** [safe_sparse_dot(A, B, dense_output=True)]: the product as a dense
    array; a term is added only where both factors are stored. *)
Definition safe_sparse_dot (A B : csr_matrix) : list (list float64) :=
  (λ i, (λ j,
     fsum (omap (λ c, match stored A !! (i, c), stored B !! (c, j) with
                      | Some a, Some b => Some (fmul a b)
                      | _, _ => None
                      end)
                (seq 0 (shape A).2)))
     <$> seq 0 (shape B).2)
  <$> seq 0 (shape A).1.

Definition cosine_similarity (X Y : csr_matrix) : list (list float64) :=
  safe_sparse_dot (normalize X) (transpose (normalize Y)).

(** ** The class [uuCF] *)

Abbreviation ndarray := (list (nat * nat * R)).

Definition col0 (Y : ndarray) : list nat := (λ r, r.1.1) <$> Y.
Definition col1 (Y : ndarray) : list nat := (λ r, r.1.2) <$> Y.
Definition col2 (Y : ndarray) : list R := (λ r, r.2) <$> Y.

(** The attributes of an instance.  [Sim] is the attribute [S]. *)
Record uuCF := {
  Y_data : ndarray;
  k : nat;
  sim_func : csr_matrix → csr_matrix → list (list float64);
  Ybar : option csr_matrix;
  n_users : nat;
  n_items : nat;
  mu : option (list float64);
  Sim : option (list (list float64))
}.

(** [np.max] of an empty array raises ValueError. *)
Definition np_max (x : list nat) : result nat :=
  match x with
  | [] => Raise ValueError
  | _ => Ok (max_list x)
  end.

(** [__init__]: the counts are the largest ids plus one. *)
Definition init (Y : ndarray) (k : nat)
    (sim_func : csr_matrix → csr_matrix → list (list float64))
    : result uuCF :=
  max_u ← np_max (col0 Y);
  max_i ← np_max (col1 Y);
  Ok {| Y_data := Y; k := k; sim_func := sim_func; Ybar := None;
        n_users := max_u + 1; n_items := max_i + 1; mu := None;
        Sim := None |}.

(** The mean of every user: [bincount(users, weights) / bincount(users)],
    then [nan_to_num]. *)
Definition user_means (Y : ndarray) : list float64 :=
  nan_to_num <$>
    zip_with (λ s c, fdiv (Finite s) (Finite (INR c)))
             (bincount_weights (col0 Y) (col2 Y)) (bincount (col0 Y)).

(** The third column of [Ybar]: [Y_data[:, 2] - mu[users]]. *)
Definition centered (Y : ndarray) (mu : list float64) : list float64 :=
  zip_with (λ v u, fsub (Finite v) (mu !!! u)) (col2 Y) (col0 Y).

(** [fit]: the means (the array of zeros first stored in [mu] is replaced
    at once), the centred copy of the ratings, its sparse matrix with one
    row per item and one column per user, and the similarity array. *)
Definition fit (self : uuCF) : uuCF :=
  let Y := Y_data self in
  let mu := user_means Y in
  let Ybar := tocsr (mk_coo (centered Y mu) (col1 Y) (col0 Y)
                            (n_items self, n_users self)) in
  let S := sim_func self (transpose Ybar) (transpose Ybar) in
  {| Y_data := Y; k := k self; sim_func := sim_func self;
     Ybar := Some Ybar; n_users := n_users self; n_items := n_items self;
     mu := Some mu; Sim := Some S |}.

(** Subscripting an attribute that is still [None] raises TypeError. *)
Definition attr {A} (o : option A) : result A :=
  match o with
  | Some a => Ok a
  | None => Raise TypeError
  end.

Definition eps : float64 := Finite (/ 10 ^ 8).

(** [predict_rating]: the raters of the item, their similarities to the
    user, the [k] largest of them, and the weighted mean of the centred
    ratings of those neighbours, plus the mean of the user. *)
Definition predict_rating (self : uuCF) (user_id item_id : nat)
    : result float64 :=
  let item_ids := where_eq (col1 (Y_data self)) item_id in
  users_rated_item ← take_ (col0 (Y_data self)) item_ids;
  S ← attr (Sim self);
  row ← getitem S user_id;
  sim_scores ← take_ row users_rated_item;
  let nearest_neighbors := slice_last (k self) (argsort sim_scores) in
  nearest_sim_scores ← take_ sim_scores nearest_neighbors;
  Yb ← attr (Ybar self);
  cols ← take_ users_rated_item nearest_neighbors;
  ratings_by_neighbors ← getrow Yb item_id cols;
  let prediction :=
    fdiv (sparse_row_dot ratings_by_neighbors nearest_sim_scores)
         (fadd (fsum (fabs <$> nearest_sim_scores)) eps) in
  m ← attr (mu self);
  mu_u ← getitem m user_id;
  Ok (fadd prediction mu_u).

(** [sorted(l, key=..., reverse=True)]: a stable sort by decreasing key,
    comparing keys with [<]. *)
Definition sorted_reverse {A} (key : A → float64) (l : list A) : list A :=
  sort_by (λ x y, negb (flt (key x) (key y))) l.

Fixpoint predict_all (self : uuCF) (user_id : nat) (items : list nat)
    : result (list (nat * float64)) :=
  match items with
  | [] => Ok []
  | item_id :: rest =>
      p ← predict_rating self user_id item_id;
      ps ← predict_all self user_id rest;
      Ok ((item_id, p) :: ps)
  end.

(** The unrated items are enumerated in increasing order (the iteration
    order of the Python set is not specified). *)
Definition recommend (self : uuCF) (user_id top_k : nat)
    : result (list nat) :=
  let all_items := seq 0 (n_items self) in
  let rated_items :=
    (filter (λ r, r.1.1 = user_id) (Y_data self)).*1.*2 in
  let unrated_items := filter (λ i, i ∉ rated_items) all_items in
  predictions ← predict_all self user_id unrated_items;
  let recommendations := take top_k (sorted_reverse snd predictions) in
  Ok (recommendations.*1).

(** ** The variant of [Book_NeighborhoodBaseCF.ipynb]

    Its [__init__] sets neither [mu] nor [S]; [fit] computes the means in
    a loop over the users, writing [mu] and the third column of [Ybar] in
    place; [pred] is [predict_rating] under another name. *)
Module Book.

Definition init (Y : ndarray) (k : nat)
    (sim_func : csr_matrix → csr_matrix → list (list float64))
    : result uuCF :=
  max_u ← np_max (col0 Y);
  max_i ← np_max (col1 Y);
  Ok {| Y_data := Y; k := k; sim_func := sim_func; Ybar := None;
        n_users := max_u + 1; n_items := max_i + 1; mu := None;
        Sim := None |}.

(** [np.mean(a)]: the sum divided by the size (NaN for an empty array).
    numpy adds the terms pairwise, [np.bincount] in the order of the rows:
    in float64 the two sums are the same where they are exact. *)
Definition np_mean (a : list R) : float64 :=
  fdiv (Finite (Rsum a)) (Finite (INR (length a))).

(** [a[ids] = vals], in place. *)
Definition assign {A} (a : list A) (ids : list nat) (vals : list A)
    : list A :=
  foldl (λ acc p, <[p.1 := p.2]> acc) a (zip ids vals).

(** One iteration of the loop [for n in range(self.n_users)]; the state
    is ([self.mu], [self.Ybar[:, 2]]). *)
Definition fit_step (Y : ndarray) (st : list float64 * list float64)
    (n : nat) : list float64 * list float64 :=
  let ids := where_eq (col0 Y) n in
  let ratings := (λ i, col2 Y !!! i) <$> ids in
  let mu_n := match ids with
              | [] => Finite 0
              | _ => np_mean ratings
              end in
  (<[n := mu_n]> st.1,
   assign st.2 ids ((λ v, fsub (Finite v) mu_n) <$> ratings)).

Definition fit (self : uuCF) : uuCF :=
  let Y := Y_data self in
  let st := foldl (fit_step Y)
              (replicate (n_users self) (Finite 0), Finite <$> col2 Y)
              (seq 0 (n_users self)) in
  let Ybar := tocsr (mk_coo st.2 (col1 Y) (col0 Y)
                            (n_items self, n_users self)) in
  let S := sim_func self (transpose Ybar) (transpose Ybar) in
  {| Y_data := Y; k := k self; sim_func := sim_func self;
     Ybar := Some Ybar; n_users := n_users self; n_items := n_items self;
     mu := Some st.1; Sim := Some S |}.

(** Reading an attribute that was never set raises AttributeError. *)
Definition attr_set {A} (o : option A) : result A :=
  match o with
  | Some a => Ok a
  | None => Raise AttributeError
  end.

Definition pred (self : uuCF) (u i : nat) : result float64 :=
  let ids := where_eq (col1 (Y_data self)) i in
  users_rated_i ← take_ (col0 (Y_data self)) ids;
  S ← attr_set (Sim self);
  row ← getitem S u;
  sim ← take_ row users_rated_i;
  let nns := slice_last (k self) (argsort sim) in
  nearest_s ← take_ sim nns;
  Yb ← attr (Ybar self);
  cols ← take_ users_rated_i nns;
  r ← getrow Yb i cols;
  m ← attr_set (mu self);
  mu_u ← getitem m u;
  Ok (fadd (fdiv (sparse_row_dot r nearest_s)
                 (fadd (fsum (fabs <$> nearest_s)) eps))
           mu_u).

End Book.

(** ** Vocabulary of the statements *)

(** A fitted model: [m = uuCF(Y, k, sim_func)] followed by [m.fit()], with
    the class of either notebook. *)
Definition fitted (Y : ndarray) (k : nat)
    (sf : csr_matrix → csr_matrix → list (list float64)) (m : uuCF) : Prop :=
  (∃ m0, init Y k sf = Ok m0 ∧ m = fit m0) ∨
  (∃ m0, Book.init Y k sf = Ok m0 ∧ m = Book.fit m0).

(** The users who rated item [t], one per rating row, in row order. *)
Definition raters (Y : ndarray) (t : nat) : list nat :=
  col0 (filter (λ r, r.1.2 = t) Y).

(** [S[i, j]] of a dense array. *)
Definition sim_at (S : list (list float64)) (i j : nat) : float64 :=
  (S !!! i) !!! j.

(** A dense array of shape (n, n). *)
Definition dense_shape (S : list (list float64)) (n : nat) : Prop :=
  length S = n ∧ Forall (λ row, length row = n) S.

(** The neighbours [users_rated_item[nearest_neighbors]] that
    [predict_rating] selects for the query ([s], [t]). *)
Definition neighbors (S : list (list float64)) (k : nat) (Y : ndarray)
    (s t : nat) : list nat :=
  let R := raters Y t in
  (λ i, R !!! i) <$> slice_last k (argsort (sim_at S s <$> R)).

(** The items [recommend] scores for user [s]: those [s] has not rated. *)
Definition candidates (Y : ndarray) (n_items s : nat) : list nat :=
  filter (λ i, i ∉ (filter (λ r, r.1.1 = s) Y).*1.*2) (seq 0 n_items).

(** The ratings of user [u] and their mean (0 when there are none). *)
Definition ratings_of (Y : ndarray) (u : nat) : list R :=
  col2 (filter (λ r, r.1.1 = u) Y).

Definition mean_of (Y : ndarray) (u : nat) : R :=
  match ratings_of Y u with
  | [] => 0
  | rs => Rsum rs / INR (length rs)
  end.

(** The centred values of the rating rows of the pair (user [s], item [t]). *)
Definition centered_at (Y : ndarray) (s t : nat) : list R :=
  (λ r, (r.2 - mean_of Y s)%R) <$> filter (λ r, r.1 = (s, t)) Y.

(** A sparse matrix all of whose stored values are real numbers, and the
    real number at a position (0 where nothing is stored). *)
Definition finite_matrix (M : csr_matrix) : Prop :=
  ∀ p x, stored M !! p = Some x → is_finite x.

Definition rentry (M : csr_matrix) (i j : nat) : R :=
  match stored M !! (i, j) with
  | Some (Finite r) => r
  | _ => 0
  end.

(** A dense array all of whose entries are real numbers. *)
Definition finite_dense (S : list (list float64)) : Prop :=
  Forall (Forall is_finite) S.

(** [S[i, j]] as a real number (0 when the entry is not one). *)
Definition rsim (S : list (list float64)) (i j : nat) : R :=
  match sim_at S i j with
  | Finite r => r
  | _ => 0
  end.

(** The value of the prediction for ([s], [t]) in real arithmetic. *)
Definition prediction (Yb : csr_matrix) (S : list (list float64)) (k : nat)
    (Y : ndarray) (s t : nat) : R :=
  (Rsum ((λ n, rentry Yb t n * rsim S s n) <$> neighbors S k Y s t)
   / (Rsum ((λ n, Rabs (rsim S s n)) <$> neighbors S k Y s t) + / 10 ^ 8)
   + mean_of Y s)%R.

(** The sum of the squares of row [i] in real arithmetic, and the divisor
    [normalize] applies to that row. *)
Definition rsumsq (X : csr_matrix) (i : nat) : R :=
  Rsum ((λ c, rentry X i c * rentry X i c)%R <$> seq 0 (shape X).2).

Definition rnorm (X : csr_matrix) (i : nat) : R :=
  if decide (rsumsq X i = 0%R) then 1%R else sqrt (rsumsq X i).

(** The pairs (position, value) that [argsort] orders. *)
Definition argsort_pairs (a : list float64) : list (nat * float64) :=
  sort_by (λ p q, np_le p.2 q.2) (zip (seq 0 (length a)) a).

(** ** Example inputs *)

(** Three users, two items; every pair rated at most once. *)
Definition Y_scenario : ndarray :=
  [(0, 0, 5%R); (0, 1, 3%R); (1, 0, 4%R); (1, 1, 4%R); (2, 0, 1%R)].

(** Item 1 has no rating. *)
Definition Y_gap : ndarray := [(0, 0, 5%R); (0, 2, 3%R)].

(** User 1 has no rating. *)
Definition Y_idle : ndarray := [(0, 0, 5%R); (2, 0, 1%R)].

(** The pair (user 0, item 0) is rated twice. *)
Definition Y_dup : ndarray := [(0, 0, 5%R); (0, 0, 3%R)].

(** Users 0 and 1 have no item in common. *)
Definition Y_apart : ndarray :=
  [(0, 0, 5%R); (0, 1, 3%R); (1, 2, 4%R); (1, 3, 2%R)].

(** User 1 has three rating rows for item 0, user 2 has one; user 0 has
    the centred ratings of user 1 on the items 1 and 2. *)
Definition Y_repeat : ndarray :=
  [(2, 0, 3%R); (1, 0, 3%R); (1, 0, 3%R); (1, 0, 3%R);
   (0, 1, 5%R); (0, 2, 1%R); (1, 1, 5%R); (1, 2, 1%R)]%nat.

(** User 1 has one rating, and two items left to rate. *)
Definition Y_flat : ndarray :=
  [(0, 0, 5%R); (0, 1, 3%R); (1, 2, 4%R)]%nat.

(** [uuCF(Y, k=40)] followed by [fit()]. *)
Definition fit_default (Y : ndarray) : uuCF :=
  fit {| Y_data := Y; k := 40; sim_func := cosine_similarity; Ybar := None;
         n_users := max_list (col0 Y) + 1; n_items := max_list (col1 Y) + 1;
         mu := None; Sim := None |}.

(** [uuCF(Y, k=k0)] followed by [fit()]. *)
Definition fit_k (k0 : nat) (Y : ndarray) : uuCF :=
  fit {| Y_data := Y; k := k0; sim_func := cosine_similarity; Ybar := None;
         n_users := max_list (col0 Y) + 1; n_items := max_list (col1 Y) + 1;
         mu := None; Sim := None |}.

(** ** The evaluation scripts of the notebooks

    The cells that follow the class: the exchange of the user and item
    columns for item-item filtering, the RMSE loop, the HR@10 loop of
    [Bach_Paper_Testing.ipynb] and the function [compute_hr_at_10] of
    [Bach_Paper.ipynb].  A script fails with an exception of the class or
    with the ZeroDivisionError of a division of Python numbers. *)

Inductive script_exn := ModelError (e : exn) | ZeroDivisionError.

Inductive outcome (A : Type) :=
  | Done (a : A)
  | Failed (e : script_exn).
Arguments Done {A} a.
Arguments Failed {A} e.

(** [rate_train[:, [1, 0, 2]]]. *)
Definition swap_columns (Y : ndarray) : ndarray :=
  (λ r, (r.1.2, r.1.1, r.2)) <$> Y.

(** The loop [SE += (pred - rate_test[n, 2]) ** 2], from [SE].  The ids
    [rate_test[n, 0]] and [rate_test[n, 1]] are passed as they are: the
    test array is the integer array that the notebook loads (a float64 id
    is no index of [S]). *)
Fixpoint squared_error (rs : uuCF) (rate_test : ndarray) (SE : float64)
    : result float64 :=
  match rate_test with
  | [] => Ok SE
  | row :: rest =>
      pred ← predict_rating rs row.1.1 row.1.2;
      let d := fsub pred (Finite row.2) in
      squared_error rs rest (fadd SE (fmul d d))
  end.

(** [RMSE = np.sqrt(SE / n_tests)]; with no test row [SE] and [n_tests]
    are the Python integers 0 and the division raises. *)
Definition RMSE (rs : uuCF) (rate_test : ndarray) : outcome float64 :=
  match squared_error rs rate_test (Finite 0) with
  | Raise e => Failed (ModelError e)
  | Ok SE =>
      match rate_test with
      | [] => Failed ZeroDivisionError
      | _ => Done (fsqrt (fdiv SE (Finite (INR (length rate_test)))))
      end
  end.

(** The loop of the HR@10 cell: one more hit for every test row whose item
    is among the ten recommendations of its user. *)
Fixpoint count_hits (rs : uuCF) (rate_test : ndarray) (hits : nat)
    : result nat :=
  match rate_test with
  | [] => Ok hits
  | row :: rest =>
      recommendations ← recommend rs row.1.1 10;
      count_hits rs rest
        (if decide (row.1.2 ∈ recommendations) then S hits else hits)
  end.

(** [HR_10 = hits / rate_test.shape[0]], a division of Python integers. *)
Definition HR_10 (rs : uuCF) (rate_test : ndarray) : outcome float64 :=
  match count_hits rs rate_test 0 with
  | Raise e => Failed (ModelError e)
  | Ok hits =>
      match rate_test with
      | [] => Failed ZeroDivisionError
      | _ => Done (Finite (INR hits / INR (length rate_test)))
      end
  end.

(** The body of the loop of [compute_hr_at_10] up to [top_10_items]: the
    unrated items in increasing order, their predictions, the stable sort
    by decreasing prediction and the first ten items. *)
Definition top_10_items (model : uuCF) (n_items u : nat)
    : result (list nat) :=
  let rated_items := col1 (filter (λ r, r.1.1 = u) (Y_data model)) in
  let unrated_items := filter (λ i, i ∉ rated_items) (seq 0 n_items) in
  predictions ← predict_all model u unrated_items;
  Ok (take 10 (sorted_reverse snd predictions)).*1.

(** [items_tested]: the items of the test rows of [u]; when there are more
    than ten, the ten largest ids ([np.argsort(...)[::-1][:10]]). *)
Definition items_tested (test_data : ndarray) (u : nat) : list nat :=
  let items := col1 (filter (λ r, r.1.1 = u) test_data) in
  if decide (10 < length items)
  then take 10 (reverse (sort_by Nat.leb items))
  else items.

(** The loop [for u in range(users.shape[0])]: [u] runs over the
    positions of the distinct test users, and is used as the user id. *)
Fixpoint hr_loop (model : uuCF) (test_data : ndarray) (n_items : nat)
    (us : list nat) (hits : nat) : result nat :=
  match us with
  | [] => Ok hits
  | u :: rest =>
      top ← top_10_items model n_items u;
      hr_loop model test_data n_items rest
        (if decide (Exists (λ item, item ∈ top) (items_tested test_data u))
         then S hits else hits)
  end.

Definition compute_hr_at_10 (model : uuCF) (test_data : ndarray)
    (n_items : nat) : outcome float64 :=
  let users := remove_dups (col0 test_data) in
  match hr_loop model test_data n_items (seq 0 (length users)) 0 with
  | Raise e => Failed (ModelError e)
  | Ok hits =>
      match users with
      | [] => Failed ZeroDivisionError
      | _ => Done (Finite (INR hits / INR (length users)))
      end
  end.

(** ** Further vocabulary *)

(** An integer [v] such that float64 adds [n] numbers of its size without
    rounding: the sums stay below 2^53. *)
Definition small_integer (v : R) (n : nat) : Prop :=
  ∃ z : Z, v = IZR z ∧ (Z.abs z * Z.of_nat n ≤ 2 ^ 53)%Z.

(** A rating array whose ratings are such integers. *)
Definition integer_ratings (Y : ndarray) : Prop :=
  Forall (λ r, small_integer r.2 (length Y)) Y.

(** ** [__init__] and [fit] in IEEE binary64

    The computation of [fit] with the default [sim_func], on the primitive
    binary64 numbers: every operation is the correctly rounded one, and
    the sums run in the order in which numpy, scipy and scikit-learn add
    (from 0.0, following the rows of the array or the column indices of a
    sparse row).  scipy leaves the order in which it adds the entries of
    a repeated position unspecified; here they are added in row order. *)
Module B64.
Import PrimFloat.

Abbreviation ndarray := (list (nat * nat * float)).

Definition col0 (Y : ndarray) : list nat := (λ r, r.1.1) <$> Y.
Definition col1 (Y : ndarray) : list nat := (λ r, r.1.2) <$> Y.
Definition col2 (Y : ndarray) : list float := (λ r, r.2) <$> Y.

#[local] Instance float_inhabited : Inhabited float := populate 0%float.

(** A sum accumulated from 0.0 in the order of the terms. *)
Definition fsum (l : list float) : float := foldl add 0%float l.

(** A count as a float64 (exact below 2^53). *)
Fixpoint of_count (n : nat) : float :=
  match n with
  | O => 0%float
  | S n' => (of_count n' + 1)%float
  end.

Definition DBL_MAX : float := 0x1.fffffffffffffp+1023%float.

Definition nan_to_num (x : float) : float :=
  if is_nan x then 0%float
  else if eqb x infinity then DBL_MAX
  else if eqb x neg_infinity then (- DBL_MAX)%float
  else x.

Definition bincount_weights (x : list nat) (w : list float) : list float :=
  (λ i, fsum (filter (λ p, p.1 = i) (zip x w)).*2) <$> seq 0 (nbins x).

Definition user_means (Y : ndarray) : list float :=
  nan_to_num <$>
    zip_with (λ s c, (s / of_count c)%float)
             (bincount_weights (col0 Y) (col2 Y)) (bincount (col0 Y)).

Definition centered (Y : ndarray) (mu : list float) : list float :=
  zip_with (λ v u, (v - mu !!! u)%float) (col2 Y) (col0 Y).

Record csr_matrix := {
  shape : nat * nat;
  stored : gmap (nat * nat) float
}.

Definition add_entry (m : gmap (nat * nat) float) (e : nat * nat * float)
    : gmap (nat * nat) float :=
  <[e.1 := match m !! e.1 with Some w => (w + e.2)%float | None => e.2 end]> m.

(** [sparse.coo_matrix((data, (row, col)), shape).tocsr()]. *)
Definition tocsr (data : list float) (row col : list nat) (shp : nat * nat)
    : csr_matrix :=
  {| shape := shp; stored := foldl add_entry ∅ (zip (zip row col) data) |}.

Definition transpose (M : csr_matrix) : csr_matrix :=
  {| shape := prod_swap (shape M); stored := kmap prod_swap (stored M) |}.

Definition row_sumsq (X : csr_matrix) (i : nat) : float :=
  fsum (omap (λ c, (λ v, (v * v)%float) <$> stored X !! (i, c))
             (seq 0 (shape X).2)).

(** [normalize(X)]: a row whose sum of squares is 0.0 is skipped. *)
Definition normalize (X : csr_matrix) : csr_matrix :=
  {| shape := shape X;
     stored := map_imap (λ p v,
                 let s := row_sumsq X p.1 in
                 Some (if eqb s 0 then v else (v / sqrt s)%float))
               (stored X) |}.

Definition safe_sparse_dot (A B : csr_matrix) : list (list float) :=
  (λ i, (λ j,
     fsum (omap (λ c, match stored A !! (i, c), stored B !! (c, j) with
                      | Some a, Some b => Some (a * b)%float
                      | _, _ => None
                      end)
                (seq 0 (shape A).2)))
     <$> seq 0 (shape B).2)
  <$> seq 0 (shape A).1.

Definition cosine_similarity (X Y : csr_matrix) : list (list float) :=
  safe_sparse_dot (normalize X) (transpose (normalize Y)).

(** The attributes that [fit] reads and writes. *)
Record uuCF := {
  Y_data : ndarray;
  n_users : nat;
  n_items : nat;
  mu : option (list float);
  Ybar : option csr_matrix;
  Sim : option (list (list float))
}.

Definition init (Y : ndarray) : result uuCF :=
  max_u ← np_max (col0 Y);
  max_i ← np_max (col1 Y);
  Ok {| Y_data := Y; n_users := max_u + 1; n_items := max_i + 1;
        mu := None; Ybar := None; Sim := None |}.

Definition fit (self : uuCF) : uuCF :=
  let Y := Y_data self in
  let mu := user_means Y in
  let Ybar := tocsr (centered Y mu) (col1 Y) (col0 Y)
                    (n_items self, n_users self) in
  {| Y_data := Y; n_users := n_users self; n_items := n_items self;
     mu := Some mu; Ybar := Some Ybar;
     Sim := Some (cosine_similarity (transpose Ybar) (transpose Ybar)) |}.

(** The scenario of the specification. *)
Definition Y_scenario : ndarray :=
  [(0, 0, 5%float); (0, 1, 3%float); (1, 0, 4%float); (1, 1, 4%float);
   (2, 0, 1%float)].



(** [np.finfo(np.float64).eps]. *)
Definition eps : float := 0x1p-52%float.

End B64.

Local Open Scope R_scope.

(** * Properties of the library operations *)

(** ** Sums and scalars *)

Lemma fsum_finite (l : list R) : fsum (Finite <$> l) = Finite (Rsum l).
Proof.
  induction l as [|x l IH]; [done|]. rewrite fmap_cons. unfold fsum in *.
  simpl. by rewrite IH.
Qed.

Lemma Rsum_nil : Rsum [] = 0.
Proof. done. Qed.

Lemma Rsum_cons x l : Rsum (x :: l) = x + Rsum l.
Proof. done. Qed.

Lemma fsum_omap_real {A} (f : A → option float64) (g : A → R) l :
  Forall (λ c, f c = Some (Finite (g c)) ∨ (f c = None ∧ g c = 0)) l →
  fsum (omap f l) = Finite (Rsum (g <$> l)).
Proof.
  induction 1 as [|c l [Hc|[Hc Hg]] _ IH]; [done|..]; csimpl; rewrite Hc.
  - change (fsum (Finite (g c) :: omap f l))
      with (fadd (Finite (g c)) (fsum (omap f l))).
    by rewrite IH.
  - rewrite IH, Hg. f_equal. lra.
Qed.

Lemma Rsum_scale {A} (a : R) (g : A → R) l :
  Rsum ((λ c, a * g c) <$> l) = a * Rsum (g <$> l).
Proof.
  induction l as [|c l IH]; csimpl; rewrite ?Rsum_nil, ?Rsum_cons; [lra|].
  rewrite IH. lra.
Qed.

Lemma Rsum_sq_nonneg {A} (g : A → R) l : 0 <= Rsum ((λ c, g c * g c) <$> l).
Proof.
  induction l as [|c l IH]; csimpl; rewrite ?Rsum_nil, ?Rsum_cons; [lra|nra].
Qed.


Lemma Rsum_abs_nonneg {A} (g : A → R) l : 0 <= Rsum ((λ c, Rabs (g c)) <$> l).
Proof.
  induction l as [|c l IH]; csimpl; [unfold Rsum; simpl; lra|].
  pose proof (Rabs_pos (g c)). lra.
Qed.

Lemma fmul_comm x y : fmul x y = fmul y x.
Proof.
  destruct x as [a| | |], y as [b| | |]; simpl; try done.
  - f_equal. lra.
  - by destruct (bool_decide (a = 0)), (bool_decide (0 <= a)).
  - by destruct (bool_decide (a = 0)), (bool_decide (0 <= a)).
  - by destruct (bool_decide (b = 0)), (bool_decide (0 <= b)).
  - by destruct (bool_decide (b = 0)), (bool_decide (0 <= b)).
Qed.

Lemma eps_pos : 0 < / 10 ^ 8.
Proof. apply Rinv_0_lt_compat. lra. Qed.

Lemma INR_length_ne_0 {A} (x : A) l : INR (length (x :: l)) ≠ 0%R.
Proof. apply not_0_INR. done. Qed.

(** ** Fancy indexing and [np.where] *)

Lemma take_lookup_total `{Inhabited A} (l : list A) idx :
  Forall (λ i, (i < length l)%nat) idx →
  take_ l idx = Ok ((λ i, l !!! i) <$> idx).
Proof.
  induction 1 as [|i idx Hi _ IH]; simpl; [done|].
  unfold getitem. rewrite (list_lookup_lookup_total_lt l i Hi). simpl.
  by rewrite IH.
Qed.

Lemma lookup_total_seq `{Inhabited A} (l : list A) :
  (λ i, l !!! i) <$> seq 0 (length l) = l.
Proof.
  apply list_eq. intros i. rewrite list_lookup_fmap.
  destruct (decide (i < length l)%nat) as [Hi|Hi].
  - rewrite lookup_seq_lt by done. simpl.
    by rewrite (list_lookup_lookup_total_lt l i).
  - rewrite lookup_seq_ge by lia. by rewrite lookup_ge_None_2 by lia.
Qed.

Lemma omap_fmap_total {A B C} (F : B → option C) (G : A → B) (H : A → C) l :
  Forall (λ x, F (G x) = Some (H x)) l → omap F (G <$> l) = H <$> l.
Proof.
  induction 1 as [|x l Hx _ IH]; [done|]. csimpl. by rewrite Hx, IH.
Qed.

Lemma zip_fmap_fmap {A B C} (f : A → B) (g : A → C) l :
  zip (f <$> l) (g <$> l) = (λ x, (f x, g x)) <$> l.
Proof. induction l as [|x l IH]; [done|]. csimpl. by rewrite IH. Qed.

Lemma zip3_fmap {A B C D} (f : A → B) (g : A → C) (h : A → D) l :
  zip (zip (f <$> l) (g <$> l)) (h <$> l) = (λ x, ((f x, g x), h x)) <$> l.
Proof. induction l as [|x l IH]; [done|]. csimpl. by rewrite IH. Qed.

Lemma where_eq_elem col x (i : nat) : i ∈ where_eq col x ↔ col !! i = Some x.
Proof.
  unfold where_eq. rewrite list_elem_of_fmap. split.
  - intros ([i' x'] & -> & [E Hin]%list_elem_of_filter). simpl in *. subst x'.
    apply elem_of_lookup_zip_with in Hin as (j & a & b & [= -> ->] & Ha & Hb).
    apply lookup_seq in Ha as [-> _]. done.
  - intros Hi. exists (i, x). split; [done|]. apply list_elem_of_filter.
    split; [done|]. apply elem_of_lookup_zip_with. exists i, i, x.
    split; [done|]. split; [|done]. apply lookup_seq. split; [done|].
    by eapply lookup_lt_Some.
Qed.

Lemma where_select_aux {A B} (f : A → nat) (g : A → B) (l pre : list A) x :
  take_ (g <$> pre ++ l)
    (filter (λ p, p.2 = x)
       (zip (seq (length pre) (length l)) (f <$> l))).*1
  = Ok (g <$> filter (λ r, f r = x) l).
Proof.
  revert pre. induction l as [|r l IH]; intros pre; [done|].
  specialize (IH (pre ++ [r])).
  rewrite length_app in IH. rewrite <- (assoc_L (++)) in IH. simpl in IH.
  replace (length pre + 1)%nat with (S (length pre)) in IH by lia.
  csimpl. rewrite filter_cons. csimpl. rewrite (filter_cons _ r).
  destruct (decide (f r = x)) as [E|E]; csimpl; [|done].
  unfold getitem. rewrite list_lookup_fmap, lookup_app_r, Nat.sub_diag by lia.
  csimpl. by rewrite IH.
Qed.

Lemma where_select {A B} (f : A → nat) (g : A → B) (l : list A) x :
  take_ (g <$> l) (where_eq (f <$> l) x) = Ok (g <$> filter (λ r, f r = x) l).
Proof.
  unfold where_eq. rewrite length_fmap. apply (where_select_aux f g l [] x).
Qed.

Lemma where_eq_lt col x : Forall (λ i, (i < length col)%nat) (where_eq col x).
Proof.
  apply Forall_forall. intros i Hi%where_eq_elem. by eapply lookup_lt_Some.
Qed.

(** ** Sorting and slicing *)

Section sort_by.
Context {A : Type} (le : A → A → bool).

Lemma insert_by_perm x l : insert_by le x l ≡ₚ x :: l.
Proof.
  induction l as [|y l IH]; simpl; [done|].
  destruct (le x y); [done|]. rewrite IH. apply Permutation_swap.
Qed.

Lemma sort_by_perm l : sort_by le l ≡ₚ l.
Proof.
  induction l as [|x l IH]; simpl; [done|].
  rewrite insert_by_perm. by f_equiv.
Qed.

Context (P : A → Prop).
Context (le_total : ∀ x y, P x → P y → le x y = true ∨ le y x = true).
Context (le_trans : ∀ x y z, P x → P y → P z →
           le x y = true → le y z = true → le x z = true).

Lemma insert_by_sorted x l :
  P x → Forall P l →
  StronglySorted (λ a b, le a b = true) l →
  StronglySorted (λ a b, le a b = true) (insert_by le x l).
Proof.
  intros Hx Hl Hs. induction Hs as [|y l Hs IH Hy]; simpl.
  - repeat constructor.
  - apply Forall_cons in Hl as [HPy HPl].
    destruct (le x y) eqn:E.
    + constructor; [by constructor|]. constructor; [done|].
      rewrite Forall_forall in Hy, HPl. apply Forall_forall. intros z Hz.
      eapply le_trans; eauto.
    + constructor; [by apply IH|].
      rewrite insert_by_perm. constructor; [|done].
      destruct (le_total x y Hx HPy); congruence.
Qed.

Lemma sort_by_sorted l :
  Forall P l → StronglySorted (λ a b, le a b = true) (sort_by le l).
Proof.
  induction 1 as [|x l Hx Hl IH]; simpl; [constructor|].
  apply insert_by_sorted; [done| |done].
  by rewrite sort_by_perm.
Qed.
End sort_by.

Lemma np_le_total x y : np_le x y = true ∨ np_le y x = true.
Proof.
  destruct x as [a| | |], y as [b| | |]; simpl; auto.
  destruct (Rle_dec a b); [left|right];
    rewrite bool_decide_eq_false_2 by lra; done.
Qed.

Lemma np_le_trans x y z :
  np_le x y = true → np_le y z = true → np_le x z = true.
Proof.
  destruct x as [a| | |], y as [b| | |], z as [c| | |]; simpl; try done.
  rewrite !negb_true_iff, !bool_decide_eq_false. lra.
Qed.

Lemma flt_total_finite (x y : nat * float64) :
  is_finite x.2 → is_finite y.2 →
  negb (flt x.2 y.2) = true ∨ negb (flt y.2 x.2) = true.
Proof.
  destruct x as [? [a| | |]], y as [? [b| | |]]; simpl; try done. intros _ _.
  destruct (Rle_dec a b); [right|left];
    rewrite bool_decide_eq_false_2 by lra; done.
Qed.

Lemma flt_trans_finite (x y z : nat * float64) :
  is_finite x.2 → is_finite y.2 → is_finite z.2 →
  negb (flt x.2 y.2) = true → negb (flt y.2 z.2) = true →
  negb (flt x.2 z.2) = true.
Proof.
  destruct x as [? [a| | |]], y as [? [b| | |]], z as [? [c| | |]];
    simpl; try done. intros _ _ _.
  rewrite !negb_true_iff, !bool_decide_eq_false. lra.
Qed.

Lemma StronglySorted_lookup_lt {A} (R : relation A) l i j a b :
  StronglySorted R l → (i < j)%nat → l !! i = Some a → l !! j = Some b →
  R a b.
Proof.
  intros Hs. revert i j. induction Hs as [|x l Hs IH Hx]; intros i j Hij Hi Hj.
  - done.
  - destruct j as [|j]; [lia|]. simpl in Hj. destruct i as [|i].
    + injection Hi as <-. rewrite Forall_forall in Hx.
      by eapply Hx, list_elem_of_lookup_2.
    + simpl in Hi. apply (IH i j); [lia|done..].
Qed.

Lemma slice_last_fmap {A B} (f : A → B) n l :
  slice_last n (f <$> l) = f <$> slice_last n l.
Proof. destruct n; simpl; [done|]. by rewrite length_fmap, fmap_drop. Qed.

Lemma slice_last_length {A} n (l : list A) :
  (1 ≤ n)%nat → length (slice_last n l) = n `min` length l.
Proof.
  destruct n; [lia|]. intros _. unfold slice_last. rewrite length_drop. lia.
Qed.

Lemma slice_last_all {A} n (l : list A) :
  (length l ≤ n)%nat → slice_last n l = l.
Proof.
  destruct n as [|n']; [done|]. intros. unfold slice_last.
  by replace (length l - S n')%nat with 0%nat by lia.
Qed.

Lemma slice_last_split {A} n (l : list A) :
  (1 ≤ n)%nat → l = take (length l - n) l ++ slice_last n l.
Proof.
  destruct n; [lia|]. intros _. unfold slice_last. by rewrite take_drop.
Qed.

Lemma slice_last_Forall {A} (P : A → Prop) n l :
  Forall P l → Forall P (slice_last n l).
Proof. destruct n; [done|]. apply Forall_drop. Qed.

Lemma slice_last_subseteq {A} n (l : list A) : slice_last n l ⊆ l.
Proof. destruct n; [done|]. apply subseteq_drop. Qed.

Lemma argsort_perm a : argsort a ≡ₚ seq 0 (length a).
Proof.
  unfold argsort. rewrite sort_by_perm. rewrite fst_zip; [done|].
  by rewrite length_seq.
Qed.

Lemma argsort_lt a : Forall (λ i, (i < length a)%nat) (argsort a).
Proof.
  rewrite argsort_perm. apply Forall_seq. lia.
Qed.

Lemma argsort_pairs_sorted a :
  StronglySorted (λ p q, np_le p.2 q.2 = true) (argsort_pairs a).
Proof.
  apply (sort_by_sorted _ (λ _, True)).
  - intros x y _ _. apply np_le_total.
  - intros x y z _ _ _. apply np_le_trans.
  - by apply Forall_forall.
Qed.

Lemma argsort_pairs_elem a i x :
  (i, x) ∈ argsort_pairs a → a !! i = Some x.
Proof.
  unfold argsort_pairs. rewrite sort_by_perm.
  intros (j & i' & x' & [= -> ->] & Hi & Hx)%elem_of_lookup_zip_with.
  apply lookup_seq in Hi as [-> _]. done.
Qed.

(** ** Sparse matrices *)

Lemma tocsr_lookup (E : list (nat * nat * R)) p :
  foldr add_entry ∅ ((λ e, (e.1, Finite e.2)) <$> E) !! p =
  match (filter (λ e, e.1 = p) E).*2 with
  | [] => None
  | vs => Some (Finite (Rsum vs))
  end.
Proof.
  induction E as [|e E IH]; [done|]. csimpl.
  unfold add_entry at 1. csimpl. rewrite filter_cons.
  destruct (decide (e.1 = p)) as [->|Hne].
  - rewrite lookup_insert_eq, IH. csimpl.
    destruct ((filter (λ e0, e0.1 = p) E).*2) as [|v vs]; simpl;
      do 2 f_equal; lra.
  - by rewrite lookup_insert_ne.
Qed.

Lemma transpose_lookup M i j :
  stored (transpose M) !! (i, j) = stored M !! (j, i).
Proof.
  unfold transpose. cbn [stored].
  by rewrite <- (lookup_kmap prod_swap (stored M) (j, i)).
Qed.

Lemma transpose_finite M : finite_matrix M → finite_matrix (transpose M).
Proof. intros HM [i j] x. rewrite transpose_lookup. apply HM. Qed.

Lemma transpose_rentry M i j : rentry (transpose M) i j = rentry M j i.
Proof. unfold rentry. by rewrite transpose_lookup. Qed.

Lemma rentry_cases M i j :
  finite_matrix M →
  stored M !! (i, j) = Some (Finite (rentry M i j)) ∨
  (stored M !! (i, j) = None ∧ rentry M i j = 0).
Proof.
  intros HM. unfold rentry.
  destruct (stored M !! (i, j)) as [x|] eqn:E; [|auto].
  apply HM in E. destruct x; try done. auto.
Qed.

Lemma entry_rentry M i j :
  finite_matrix M → entry M i j = Finite (rentry M i j).
Proof.
  intros HM. unfold entry.
  by destruct (rentry_cases M i j HM) as [->|[-> ->]].
Qed.

(** ** Cosine similarity in real arithmetic *)

Lemma row_sumsq_real X i :
  finite_matrix X → row_sumsq X i = Finite (rsumsq X i).
Proof.
  intros HX. unfold row_sumsq. apply fsum_omap_real, Forall_forall.
  intros c _. destruct (rentry_cases X i c HX) as [E|[E E']]; rewrite E.
  - by left.
  - right. split; [done|]. rewrite E'. lra.
Qed.

Lemma normalize_lookup X i c :
  stored (normalize X) !! (i, c) =
  (λ v, if is_zero (row_sumsq X i) then v
        else fdiv v (fsqrt (row_sumsq X i))) <$> stored X !! (i, c).
Proof.
  unfold normalize. cbn [stored]. rewrite map_lookup_imap.
  by destruct (stored X !! (i, c)).
Qed.

Lemma rsumsq_nonneg X i : 0 <= rsumsq X i.
Proof. apply Rsum_sq_nonneg. Qed.

Lemma rnorm_pos X i : 0 < rnorm X i.
Proof.
  unfold rnorm. destruct (decide _); [lra|].
  apply sqrt_lt_R0. pose proof (rsumsq_nonneg X i). lra.
Qed.

Lemma rnorm_sq X i :
  rnorm X i * rnorm X i = if decide (rsumsq X i = 0) then 1 else rsumsq X i.
Proof.
  unfold rnorm. destruct (decide _); [lra|].
  apply sqrt_sqrt, rsumsq_nonneg.
Qed.

Lemma normalize_real X i c :
  finite_matrix X →
  stored (normalize X) !! (i, c) =
  (λ _, Finite (rentry X i c / rnorm X i)) <$> stored X !! (i, c).
Proof.
  intros HX. rewrite normalize_lookup, (row_sumsq_real X i HX).
  destruct (rentry_cases X i c HX) as [E|[E E']]; rewrite E; [|done].
  csimpl. f_equal. unfold rnorm.
  destruct (decide (rsumsq X i = 0)) as [E0|E0].
  - rewrite bool_decide_eq_true_2 by done. f_equal. lra.
  - rewrite bool_decide_eq_false_2 by done.
    pose proof (rsumsq_nonneg X i).
    rewrite bool_decide_eq_true_2 by done. simpl.
    rewrite bool_decide_eq_false_2; [done|].
    assert (0 < sqrt (rsumsq X i)); [|lra]. apply sqrt_lt_R0. lra.
Qed.

Lemma normalize_finite X : finite_matrix X → finite_matrix (normalize X).
Proof.
  intros HX [i c] x. rewrite (normalize_real X i c HX).
  destruct (stored X !! (i, c)); [|done]. by intros [= <-].
Qed.

Lemma normalize_rentry X i c :
  finite_matrix X → rentry (normalize X) i c = rentry X i c / rnorm X i.
Proof.
  intros HX. unfold rentry at 1. rewrite (normalize_real X i c HX).
  destruct (rentry_cases X i c HX) as [E|[E E']]; rewrite E; [done|].
  simpl. rewrite E'. lra.
Qed.

Lemma safe_sparse_dot_lookup A B (i j : nat) :
  (i < (shape A).1)%nat → (j < (shape B).2)%nat →
  ∃ row, safe_sparse_dot A B !! i = Some row ∧
    row !! j = Some (fsum (omap (λ c,
                 match stored A !! (i, c), stored B !! (c, j) with
                 | Some a, Some b => Some (fmul a b)
                 | _, _ => None
                 end) (seq 0 (shape A).2))).
Proof.
  intros Hi Hj. unfold safe_sparse_dot. eexists. split.
  - rewrite list_lookup_fmap, lookup_seq_lt by done. done.
  - rewrite list_lookup_fmap, lookup_seq_lt by done. done.
Qed.

Lemma safe_sparse_dot_shape A B :
  length (safe_sparse_dot A B) = (shape A).1 ∧
  Forall (λ row, length row = (shape B).2) (safe_sparse_dot A B).
Proof.
  unfold safe_sparse_dot. split.
  - by rewrite length_fmap, length_seq.
  - apply Forall_fmap, Forall_forall. intros i _. simpl.
    by rewrite length_fmap, length_seq.
Qed.

Lemma cosine_similarity_shape X :
  dense_shape (cosine_similarity X X) (shape X).1.
Proof.
  exact (safe_sparse_dot_shape (normalize X) (transpose (normalize X))).
Qed.

Lemma cosine_similarity_lookup X Y (i j : nat) :
  finite_matrix X → finite_matrix Y →
  (i < (shape X).1)%nat → (j < (shape Y).1)%nat →
  ∃ row, cosine_similarity X Y !! i = Some row ∧
    row !! j = Some (Finite (Rsum ((λ c,
                 rentry X i c / rnorm X i * (rentry Y j c / rnorm Y j))
                 <$> seq 0 (shape X).2))).
Proof.
  intros HX HY Hi Hj. unfold cosine_similarity.
  destruct (safe_sparse_dot_lookup (normalize X) (transpose (normalize Y)) i j)
    as (row & Hrow & Hj'); [done..|].
  exists row. split; [done|]. rewrite Hj'. f_equal.
  cbn [shape normalize]. apply fsum_omap_real, Forall_forall. intros c _.
  rewrite transpose_lookup.
  pose proof (normalize_finite X HX) as HXn.
  pose proof (normalize_finite Y HY) as HYn.
  rewrite <- (normalize_rentry X i c HX), <- (normalize_rentry Y j c HY).
  destruct (rentry_cases (normalize X) i c HXn) as [E|[E E']]; rewrite E.
  - destruct (rentry_cases (normalize Y) j c HYn) as [F|[F F']]; rewrite F.
    + by left.
    + right. split; [done|]. rewrite F'. lra.
  - right. split; [done|]. rewrite E'. lra.
Qed.

Lemma cosine_similarity_sym X (i j : nat) :
  (i < (shape X).1)%nat → (j < (shape X).1)%nat →
  ∃ x, (cosine_similarity X X !! i ≫= (.!! j)) = Some x ∧
       (cosine_similarity X X !! j ≫= (.!! i)) = Some x.
Proof.
  intros Hi Hj. unfold cosine_similarity.
  destruct (safe_sparse_dot_lookup (normalize X) (transpose (normalize X)) i j)
    as (ri & Hri & Hij); [done..|].
  destruct (safe_sparse_dot_lookup (normalize X) (transpose (normalize X)) j i)
    as (rj & Hrj & Hji); [done..|].
  rewrite Hri, Hrj. csimpl. rewrite Hij, Hji. eexists. split; [done|].
  do 2 f_equal. apply list_omap_ext, Forall2_same_length_lookup.
  split; [done|]. intros k c c' Hc Hc'. rewrite Hc in Hc'. injection Hc' as <-.
  rewrite !transpose_lookup.
  destruct (stored (normalize X) !! (i, c)), (stored (normalize X) !! (j, c));
    try done.
  by rewrite fmul_comm.
Qed.

(** Self-similarity: 1 for a row that is not all zero, 0 for a zero row. *)
Lemma cosine_similarity_self X (i : nat) :
  finite_matrix X → (i < (shape X).1)%nat →
  (cosine_similarity X X !! i ≫= (.!! i)) =
  Some (Finite (if decide (rsumsq X i = 0) then 0 else 1)).
Proof.
  intros HX Hi.
  destruct (cosine_similarity_lookup X X i i HX HX Hi Hi) as (row & -> & Hr).
  csimpl. rewrite Hr. do 2 f_equal.
  pose proof (rnorm_pos X i) as Hpos. pose proof (rnorm_sq X i) as Hsq.
  set (sq := λ c, rentry X i c * rentry X i c).
  rewrite (list_fmap_ext _ (λ c, / (rnorm X i * rnorm X i) * sq c)
             (seq 0 (shape X).2))
    by (intros; unfold sq; simpl; field; lra).
  rewrite (Rsum_scale (/ (rnorm X i * rnorm X i)) sq). unfold sq.
  fold (rsumsq X i). rewrite Hsq.
  destruct (decide (rsumsq X i = 0)) as [->|Hne]; [lra|]. by field.
Qed.

Lemma cosine_similarity_finite X :
  finite_matrix X → finite_dense (cosine_similarity X X).
Proof.
  intros HX. apply Forall_forall. intros row [i Hi]%list_elem_of_lookup_1.
  apply Forall_forall. intros x [j Hj]%list_elem_of_lookup_1.
  destruct (cosine_similarity_shape X) as [Hlen Hrows].
  assert (i < (shape X).1)%nat as Hi'.
  { rewrite <- Hlen. by eapply lookup_lt_Some. }
  assert (j < (shape X).1)%nat as Hj'.
  { rewrite Forall_forall in Hrows.
    rewrite <- (Hrows row) by by eapply list_elem_of_lookup_2.
    by eapply lookup_lt_Some. }
  destruct (cosine_similarity_lookup X X i j HX HX Hi' Hj') as (row' & Hr & Hx).
  rewrite Hi in Hr. injection Hr as <-. rewrite Hj in Hx. by injection Hx as ->.
Qed.

(** * Properties of the class *)

(** ** The means and the centred matrix computed by [fit] *)

Lemma np_max_ok x n : np_max x = Ok n → x ≠ [] ∧ n = max_list x.
Proof. destruct x; [done|]. by intros [= <-]. Qed.

Lemma nbins_max x : x ≠ [] → nbins x = (max_list x + 1)%nat.
Proof. destruct x; [done|]. intros _. unfold nbins. lia. Qed.

Lemma max_list_ge (x : list nat) i : i ∈ x → (i ≤ max_list x)%nat.
Proof. apply max_list_elem_of_le. Qed.

Lemma col0_lt_nbins Y r : r ∈ Y → (r.1.1 < nbins (col0 Y))%nat.
Proof.
  intros Hr. assert (r.1.1 ∈ col0 Y) as Hin.
  { unfold col0. apply list_elem_of_fmap. eauto. }
  destruct (col0 Y) eqn:E; [by apply elem_of_nil in Hin|].
  rewrite <- E in *. rewrite nbins_max by (rewrite E; done).
  apply max_list_ge in Hin. lia.
Qed.

Lemma col0_le_max Y r : r ∈ Y → (r.1.1 ≤ max_list (col0 Y))%nat.
Proof.
  intros Hr. apply max_list_ge. unfold col0. apply list_elem_of_fmap. eauto.
Qed.

Lemma col1_le_max Y r : r ∈ Y → (r.1.2 ≤ max_list (col1 Y))%nat.
Proof.
  intros Hr. apply max_list_ge. unfold col1. apply list_elem_of_fmap. eauto.
Qed.

Lemma ratings_of_zip Y u :
  (filter (λ p, p.1 = u) (zip (col0 Y) (col2 Y))).*2 = ratings_of Y u.
Proof.
  unfold ratings_of, col0, col2. induction Y as [|r Y IH]; [done|].
  csimpl. rewrite filter_cons, (filter_cons _ r). csimpl.
  destruct (decide (r.1.1 = u)); csimpl; by rewrite IH.
Qed.

Lemma ratings_of_count Y u :
  length (filter (λ v, v = u) (col0 Y)) = length (ratings_of Y u).
Proof.
  unfold ratings_of, col0, col2. induction Y as [|r Y IH]; [done|].
  csimpl. rewrite filter_cons, (filter_cons _ r). csimpl.
  destruct (decide (r.1.1 = u)); csimpl; by rewrite IH.
Qed.

Lemma user_means_lookup Y u :
  (u < nbins (col0 Y))%nat →
  user_means Y !! u = Some (Finite (mean_of Y u)).
Proof.
  intros Hu. unfold user_means, bincount_weights, bincount.
  rewrite list_lookup_fmap, lookup_zip_with, !list_lookup_fmap.
  rewrite lookup_seq_lt by done. csimpl.
  rewrite ratings_of_zip, ratings_of_count. unfold mean_of.
  destruct (ratings_of Y u) as [|v vs] eqn:E.
  - simpl. rewrite !bool_decide_eq_true_2 by done. done.
  - set (l := v :: vs). simpl. rewrite bool_decide_eq_false_2; [done|].
    apply (INR_length_ne_0 v vs).
Qed.

Lemma user_means_length Y : length (user_means Y) = nbins (col0 Y).
Proof.
  unfold user_means, bincount_weights, bincount.
  rewrite length_fmap, length_zip_with, !length_fmap, !length_seq. lia.
Qed.

Lemma centered_means Y :
  centered Y (user_means Y) = (λ r, Finite (r.2 - mean_of Y r.1.1)) <$> Y.
Proof.
  unfold centered, col2, col0. rewrite zip_with_fmap_l, zip_with_fmap_r.
  rewrite zip_with_diag. apply Forall_fmap_ext, Forall_forall.
  intros r Hr. apply col0_lt_nbins in Hr.
  apply user_means_lookup in Hr as Hm.
  apply list_lookup_total_correct in Hm. rewrite Hm. simpl.
  f_equal.
Qed.

Lemma coo_entries_fit Y shp :
  coo_entries (mk_coo (centered Y (user_means Y)) (col1 Y) (col0 Y) shp)
  = (λ r, ((r.1.2, r.1.1), Finite (r.2 - mean_of Y r.1.1))) <$> Y.
Proof.
  simpl. rewrite centered_means. unfold col1, col0. apply zip3_fmap.
Qed.

Lemma filter_entries (g : nat → R → R) (Y : ndarray) s t :
  (filter (λ e : nat * nat * R, e.1 = (t, s))
     ((λ r, ((r.1.2, r.1.1), g r.1.1 r.2)) <$> Y)).*2
  = (λ r, g s r.2) <$> filter (λ r, r.1 = (s, t)) Y.
Proof.
  induction Y as [|[[u i] v] Y IH]; [done|]. csimpl.
  rewrite filter_cons, (filter_cons _ (u, i, v)). csimpl.
  destruct (decide ((i, u) = (t, s))) as [E|E];
    destruct (decide ((u, i) = (s, t))) as [E'|E']; csimpl.
  - injection E' as -> ->. by rewrite IH.
  - congruence.
  - congruence.
  - done.
Qed.

Lemma Ybar_lookup Y shp s t :
  stored (tocsr (mk_coo (centered Y (user_means Y)) (col1 Y) (col0 Y) shp))
    !! (t, s)
  = match centered_at Y s t with
    | [] => None
    | vs => Some (Finite (Rsum vs))
    end.
Proof.
  unfold tocsr. cbn [stored]. rewrite coo_entries_fit.
  rewrite (list_fmap_compose
             (λ r : nat * nat * R, ((r.1.2, r.1.1), (r.2 - mean_of Y r.1.1)%R))
             (λ e : nat * nat * R, (e.1, Finite e.2))).
  rewrite tocsr_lookup.
  by rewrite (filter_entries (λ u v, (v - mean_of Y u)%R)).
Qed.

Lemma centered_at_nil Y s t :
  centered_at Y s t = [] ↔ ∀ v, (s, t, v) ∉ Y.
Proof.
  unfold centered_at. split.
  - intros E%fmap_nil_inv v Hv.
    assert ((s, t, v) ∈ filter (λ r, r.1 = (s, t)) Y) as Hin.
    { by apply list_elem_of_filter. }
    rewrite E in Hin. by apply elem_of_nil in Hin.
  - intros H.
    destruct (filter (λ r, r.1 = (s, t)) Y) as [|[[u i] v] l] eqn:E; [done|].
    assert ((u, i, v) ∈ filter (λ r, r.1 = (s, t)) Y) as Hin.
    { rewrite E. left. }
    apply list_elem_of_filter in Hin as [Heq Hin]. simpl in Heq.
    injection Heq as -> ->. by destruct (H v).
Qed.

Lemma centered_at_rated Y u t v : (u, t, v) ∈ Y → centered_at Y u t ≠ [].
Proof. intros Hin E. by eapply centered_at_nil in E. Qed.

Lemma Ybar_stored_rated Y shp u t v :
  (u, t, v) ∈ Y →
  ∃ c, stored (tocsr (mk_coo (centered Y (user_means Y)) (col1 Y) (col0 Y) shp))
         !! (t, u) = Some (Finite c).
Proof.
  intros Hin. rewrite Ybar_lookup.
  destruct (centered_at Y u t) eqn:E; [by eapply centered_at_rated in E|].
  eauto.
Qed.

Lemma Ybar_finite Y shp p x :
  stored (tocsr (mk_coo (centered Y (user_means Y)) (col1 Y) (col0 Y) shp))
    !! p = Some x → ∃ c, x = Finite c.
Proof.
  destruct p as [t s]. rewrite Ybar_lookup.
  destruct (centered_at Y s t); [done|]. intros [= <-]. eauto.
Qed.

Lemma Ybar_stored_inv Y shp t s x :
  stored (tocsr (mk_coo (centered Y (user_means Y)) (col1 Y) (col0 Y) shp))
    !! (t, s) = Some x →
  ∃ v, (s, t, v) ∈ Y.
Proof.
  rewrite Ybar_lookup. intros Hx.
  destruct (decide (centered_at Y s t = [])) as [E|E]; [by rewrite E in Hx|].
  unfold centered_at in E.
  destruct (filter (λ r, r.1 = (s, t)) Y) as [|[[u i] v] l] eqn:F; [done|].
  assert ((u, i, v) ∈ filter (λ r, r.1 = (s, t)) Y) as Hin by (rewrite F; left).
  apply list_elem_of_filter in Hin as [[= -> ->] Hin]. eauto.
Qed.

(** ** The loop of [Book.fit] computes what [fit] computes *)

Lemma where_ratings Y (u : nat) :
  (λ i, col2 Y !!! i) <$> where_eq (col0 Y) u = ratings_of Y u.
Proof.
  pose proof (where_select (λ r : nat * nat * R, r.1.1) (λ r, r.2) Y u) as H.
  fold (col0 Y) (col2 Y) in H.
  rewrite (take_lookup_total (col2 Y)) in H.
  - by injection H.
  - unfold col2, col0. rewrite length_fmap.
    rewrite <- (length_fmap (λ r : nat * nat * R, r.1.1)). apply where_eq_lt.
Qed.

Lemma assign_fmap_lookup {A} (a : list A) ids (g : nat → A) (i : nat) :
  Book.assign a ids (g <$> ids) !! i =
  if decide (i ∈ ids) then (λ _, g i) <$> a !! i else a !! i.
Proof.
  unfold Book.assign. revert a. induction ids as [|x ids IH]; intros a.
  - case_decide as H; [by apply elem_of_nil in H|done].
  - rewrite fmap_cons. cbn [zip zip_with foldl fst snd]. rewrite IH.
    destruct (decide (i = x)) as [->|Hne].
    + rewrite (decide_True (P := x ∈ x :: ids)) by left.
      destruct (decide (x < length a)%nat) as [Hx|Hx].
      * rewrite list_lookup_insert_eq by done.
        destruct (lookup_lt_is_Some_2 a x Hx) as [y ->]. by case_decide.
      * rewrite list_insert_ge by lia.
        rewrite (lookup_ge_None_2 a x) by lia. by case_decide.
    + rewrite list_lookup_insert_ne by done.
      destruct (decide (i ∈ ids)) as [Hi|Hi].
      * rewrite decide_True; [done|]. by right.
      * rewrite decide_False; [done|]. by intros [?|?]%elem_of_cons.
Qed.

(** The state of the loop of [Book.fit] after the users below [j]. *)
Lemma fit_loop_invariant Y (j : nat) :
  (j ≤ nbins (col0 Y))%nat →
  foldl (Book.fit_step Y)
    (replicate (nbins (col0 Y)) (Finite 0), Finite <$> col2 Y) (seq 0 j)
  = (take j (user_means Y) ++ replicate (nbins (col0 Y) - j) (Finite 0),
     (λ r, if decide (r.1.1 < j)%nat
           then Finite (r.2 - mean_of Y r.1.1) else Finite r.2) <$> Y).
Proof.
  induction j as [|j IH]; intros Hj.
  - cbn [seq foldl take app]. rewrite Nat.sub_0_r. f_equal.
    unfold col2. rewrite <- list_fmap_compose.
    apply Forall_fmap_ext_1, Forall_forall. intros r _. unfold compose.
    case_decide; [lia|done].
  - rewrite seq_S, foldl_app, IH by lia. cbn [foldl plus].
    unfold Book.fit_step. cbn [fst snd].
    assert (match where_eq (col0 Y) j with
            | [] => Finite 0
            | _ => Book.np_mean ((λ i, col2 Y !!! i) <$> where_eq (col0 Y) j)
            end = Finite (mean_of Y j)) as ->.
    { rewrite where_ratings. unfold mean_of.
      pose proof (where_ratings Y j) as E.
      destruct (where_eq (col0 Y) j) as [|i ids]; [by rewrite <- E|].
      destruct (ratings_of Y j) as [|v vs] eqn:F; [done|].
      unfold Book.np_mean. cbn [fdiv].
      rewrite bool_decide_eq_false_2; [done|]. apply (INR_length_ne_0 v vs). }
    f_equal.
    + pose proof (user_means_lookup Y j ltac:(lia)) as Hm.
      pose proof (user_means_length Y) as Hl.
      rewrite (take_S_r _ _ _ Hm), <- (assoc_L (++)).
      rewrite insert_app_r_alt by (rewrite length_take; lia).
      rewrite length_take, Hl.
      replace (j `min` nbins (col0 Y) - j)%nat with 0%nat by lia.
      replace (j - j `min` nbins (col0 Y))%nat with 0%nat by lia.
      replace (nbins (col0 Y) - j)%nat with (S (nbins (col0 Y) - S j)) by lia.
      done.
    + rewrite <- list_fmap_compose.
      apply list_eq. intros i.
      rewrite (assign_fmap_lookup _ _
                 ((λ v, fsub (Finite v) (Finite (mean_of Y j)))
                  ∘ (λ i, col2 Y !!! i))).
      unfold compose.
      rewrite !list_lookup_fmap.
      destruct (Y !! i) as [r|] eqn:E; rewrite ?E;
        cbn [fmap option_fmap option_map].
      2:{ by case_decide. }
      assert (col2 Y !!! i = r.2) as Hv.
      { apply list_lookup_total_correct. unfold col2.
        by rewrite list_lookup_fmap, E. }
      assert (i ∈ where_eq (col0 Y) j ↔ r.1.1 = j) as Hin.
      { rewrite where_eq_elem. unfold col0. rewrite list_lookup_fmap, E.
        csimpl. split; congruence. }
      destruct (decide (i ∈ where_eq (col0 Y) j)) as [Hi|Hi].
      * apply Hin in Hi. rewrite Hv, Hi.
        rewrite decide_True by lia. unfold fsub. simpl. done.
      * destruct (decide (r.1.1 < j)%nat).
        -- rewrite decide_True by lia. done.
        -- rewrite decide_False; [done|]. intros ?. apply Hi, Hin. lia.
Qed.

Lemma fit_equiv Y k0 sf m0 :
  Book.init Y k0 sf = Ok m0 → Book.fit m0 = fit m0 ∧ init Y k0 sf = Ok m0.
Proof.
  intros Hi. split; [|done]. unfold Book.init in Hi.
  destruct (np_max (col0 Y)) as [a|] eqn:Ea; [|done].
  destruct (np_max (col1 Y)) as [b|] eqn:Eb; [|done].
  simpl in Hi. injection Hi as <-.
  apply np_max_ok in Ea as [Hne ->]. apply np_max_ok in Eb as [_ ->].
  unfold Book.fit, fit. cbn [Y_data n_users n_items sim_func k].
  rewrite <- (nbins_max (col0 Y)) by done.
  rewrite (fit_loop_invariant Y (nbins (col0 Y))) by done. cbn [fst snd].
  rewrite Nat.sub_diag, app_nil_r.
  rewrite take_ge by (rewrite user_means_length; lia).
  rewrite centered_means.
  assert ((λ r : nat * nat * R,
             if decide (r.1.1 < nbins (col0 Y))%nat
             then Finite (r.2 - mean_of Y r.1.1) else Finite r.2) <$> Y
          = (λ r, Finite (r.2 - mean_of Y r.1.1)) <$> Y) as ->; [|done].
  apply Forall_fmap_ext_1, Forall_forall. intros r Hr.
  rewrite decide_True; [done|]. by apply col0_lt_nbins.
Qed.

Lemma pred_predict_rating (m : uuCF) u i :
  is_Some (Sim m) → is_Some (mu m) → Book.pred m u i = predict_rating m u i.
Proof.
  intros [S HS] [mus Hmu]. unfold Book.pred, predict_rating.
  by rewrite HS, Hmu.
Qed.

(** ** Fitted models *)

(** What a fitted model holds in its attributes. *)
Lemma fitted_inv Y k0 sf m :
  fitted Y k0 sf m →
  Y ≠ [] ∧ Y_data m = Y ∧ k m = k0 ∧
  n_users m = (max_list (col0 Y) + 1)%nat ∧
  n_items m = (max_list (col1 Y) + 1)%nat ∧
  mu m = Some (user_means Y) ∧
  ∃ Yb, Ybar m = Some Yb ∧
    Yb = tocsr (mk_coo (centered Y (user_means Y)) (col1 Y) (col0 Y)
                       (max_list (col1 Y) + 1, max_list (col0 Y) + 1)%nat) ∧
    Sim m = Some (sf (transpose Yb) (transpose Yb)).
Proof.
  intros [(m0 & Hi & ->)|(m0 & [-> Hi]%fit_equiv & ->)];
    unfold init in Hi;
    (destruct (np_max (col0 Y)) as [a|] eqn:Ea; [|done]);
    (destruct (np_max (col1 Y)) as [b|] eqn:Eb; [|done]);
    simpl in Hi; injection Hi as <-;
    apply np_max_ok in Ea as [Hne ->]; apply np_max_ok in Eb as [_ ->];
    simpl; (split; [by destruct Y|]); repeat split; eauto.
Qed.

(** Names the attributes of a fitted model. *)
Ltac fitted_attrs H :=
  pose proof H
    as (Hne & HY & Hk & Hnu & Hni & Hmu & Yb & HYb & EYb & HS)%fitted_inv.

Lemma fitted_Y_data Y k sf m : fitted Y k sf m → Y_data m = Y.
Proof. by intros (_ & HY & _)%fitted_inv. Qed.

Lemma fitted_pred Y k0 sf m u i :
  fitted Y k0 sf m → Book.pred m u i = predict_rating m u i.
Proof.
  intros (_ & _ & _ & _ & _ & Hmu & Yb & _ & _ & HS)%fitted_inv.
  apply pred_predict_rating; [by rewrite HS|by rewrite Hmu].
Qed.

(** What [fit] leaves in the attributes when the similarity function is
    [cosine_similarity]. *)
Lemma fitted_cosine Y k m :
  fitted Y k cosine_similarity m →
  ∃ Yb S,
    Ybar m = Some Yb ∧ Sim m = Some S ∧
    S = cosine_similarity (transpose Yb) (transpose Yb) ∧
    shape Yb = (n_items m, n_users m) ∧
    finite_matrix Yb ∧
    (∀ t s x, stored Yb !! (t, s) = Some x →
              (t < n_items m)%nat ∧ ∃ v, (s, t, v) ∈ Y) ∧
    dense_shape S (n_users m) ∧ finite_dense S.
Proof.
  intros (Hne & HY & Hk & Hnu & Hni & Hmu & Yb & HYb & EYb & HS)%fitted_inv.
  exists Yb, (cosine_similarity (transpose Yb) (transpose Yb)).
  assert (finite_matrix Yb) as Hfin.
  { intros p x Hx. rewrite EYb in Hx. apply Ybar_finite in Hx as [c ->]. done. }
  assert (shape Yb = (n_items m, n_users m)) as Hsh.
  { rewrite EYb, Hnu, Hni. done. }
  repeat split; try done.
  - rewrite EYb in H. apply Ybar_stored_inv in H as [v Hv].
    apply col1_le_max in Hv. simpl in Hv. lia.
  - rewrite EYb in H. by apply Ybar_stored_inv in H.
  - pose proof (cosine_similarity_shape (transpose Yb)) as [Hl _].
    rewrite Hl. cbn [shape transpose]. by rewrite Hsh.
  - pose proof (cosine_similarity_shape (transpose Yb)) as [_ Hl].
    cbn [shape transpose] in Hl. by rewrite Hsh in Hl.
  - by apply cosine_similarity_finite, transpose_finite.
Qed.

(** ** The neighbours and the value of a prediction *)

Lemma raters_elem Y t u : u ∈ raters Y t ↔ ∃ v, (u, t, v) ∈ Y.
Proof.
  unfold raters, col0. rewrite list_elem_of_fmap. split.
  - intros ([[u' t'] v] & -> & [E Hin]%list_elem_of_filter). simpl in *.
    subst. eauto.
  - intros [v Hv]. exists (u, t, v). split; [done|].
    by apply list_elem_of_filter.
Qed.

Lemma where_raters (Y : ndarray) t :
  take_ (col0 Y) (where_eq (col1 Y) t) = Ok (raters Y t).
Proof. apply (where_select (λ r : nat * nat * R, r.1.2) (λ r, r.1.1)). Qed.

Lemma neighbors_spec S k Y (s t : nat) :
  (1 ≤ k)%nat →
  length (neighbors S k Y s t) = k `min` length (raters Y t) ∧
  (∃ rest, rest ++ neighbors S k Y s t ≡ₚ raters Y t ∧
     ∀ x y, x ∈ rest → y ∈ neighbors S k Y s t →
            np_le (sim_at S s x) (sim_at S s y) = true) ∧
  ((length (raters Y t) ≤ k)%nat → neighbors S k Y s t ≡ₚ raters Y t).
Proof.
  intros Hk. unfold neighbors. set (R := raters Y t).
  set (sims := sim_at S s <$> R).
  assert (length sims = length R) as Hlen by apply length_fmap.
  assert (length (argsort sims) = length R) as Hlen'.
  { by rewrite argsort_perm, length_seq. }
  assert ((λ i, R !!! i) <$> argsort sims ≡ₚ R) as Hperm.
  { rewrite argsort_perm, Hlen. by rewrite lookup_total_seq. }
  split; [|split].
  - rewrite length_fmap, slice_last_length by done. by rewrite Hlen'.
  - exists ((λ i, R !!! i) <$> take (length (argsort sims) - k) (argsort sims)).
    split.
    + rewrite <- fmap_app, <- slice_last_split by done. done.
    + intros x y (i & -> & Hi)%list_elem_of_fmap
        (j & -> & Hj)%list_elem_of_fmap.
      unfold argsort in Hi, Hj. fold (argsort_pairs sims) in Hi, Hj.
      rewrite length_fmap in Hi.
      rewrite <- fmap_take in Hi. rewrite slice_last_fmap in Hj.
      apply list_elem_of_fmap in Hi as ([i' x] & -> & Hi).
      apply list_elem_of_fmap in Hj as ([j' y] & -> & Hj). simpl.
      pose proof (argsort_pairs_sorted sims) as Hs.
      rewrite (slice_last_split k (argsort_pairs sims)) in Hs by done.
      pose proof (StronglySorted_app_1_elem_of _ _ _ _ _ Hs Hi Hj) as Hle.
      simpl in Hle.
      assert (∀ i x, (i, x) ∈ argsort_pairs sims →
                     sim_at S s (R !!! i) = x) as Hval.
      { intros i0 x0 Hin%argsort_pairs_elem. unfold sims in Hin.
        rewrite list_lookup_fmap in Hin.
        destruct (R !! i0) as [u|] eqn:E; [|done].
        rewrite (list_lookup_total_correct R i0 u E). by injection Hin. }
      rewrite (Hval i' x), (Hval j' y); [done|..].
      * eapply slice_last_subseteq, Hj.
      * eapply subseteq_take, Hi.
  - intros Hall. rewrite slice_last_all by lia. done.
Qed.

Lemma neighbors_nil S k Y s t : raters Y t = [] → neighbors S k Y s t = [].
Proof. intros E. unfold neighbors. rewrite E. by destruct k. Qed.

Lemma neighbors_subseteq S k Y s t : neighbors S k Y s t ⊆ raters Y t.
Proof.
  unfold neighbors. intros u (i & -> & Hi)%list_elem_of_fmap.
  apply slice_last_subseteq in Hi.
  pose proof (argsort_lt (sim_at S s <$> raters Y t)) as Hlt.
  rewrite Forall_forall in Hlt. apply Hlt in Hi. rewrite length_fmap in Hi.
  by apply list_elem_of_lookup_total_2.
Qed.

(** With [k = 0] the slice [[-k:]] keeps every rater. *)
Lemma neighbors_k_zero S Y s t : neighbors S 0 Y s t ≡ₚ raters Y t.
Proof.
  unfold neighbors. cbn [slice_last].
  rewrite argsort_perm, length_fmap. by rewrite lookup_total_seq.
Qed.

Lemma predict_rating_value (m : uuCF) Y S Yb mus s t row mu_s :
  Y_data m = Y → Sim m = Some S → Ybar m = Some Yb → mu m = Some mus →
  S !! s = Some row →
  Forall (λ u, (u < length row)%nat) (raters Y t) →
  (t < (shape Yb).1)%nat →
  Forall (λ u, (u < (shape Yb).2)%nat) (raters Y t) →
  Forall (λ u, is_Some (stored Yb !! (t, u))) (raters Y t) →
  mus !! s = Some mu_s →
  predict_rating m s t =
    Ok (fadd
          (fdiv (fsum ((λ n, fmul (entry Yb t n) (sim_at S s n))
                         <$> neighbors S (k m) Y s t))
                (fadd (fsum ((λ n, fabs (sim_at S s n))
                               <$> neighbors S (k m) Y s t)) eps))
          mu_s).
Proof.
  intros HY HS HYb Hmu Hrow Hlen Ht Hcols Hst Hmus.
  unfold predict_rating. rewrite HY, where_raters, HS, HYb, Hmu. csimpl.
  unfold getitem. rewrite Hrow, Hmus. csimpl.
  rewrite (take_lookup_total row) by done. csimpl.
  set (R := raters Y t) in *.
  assert ((λ i, row !!! i) <$> R = sim_at S s <$> R) as ->.
  { apply list_fmap_ext. intros _ u _. unfold sim_at.
    by rewrite (list_lookup_total_correct S s row). }
  set (sims := sim_at S s <$> R).
  set (nn := slice_last (k m) (argsort sims)).
  assert (Forall (λ i, (i < length R)%nat) nn) as Hnn.
  { apply slice_last_Forall. rewrite <- (length_fmap (sim_at S s) R).
    apply argsort_lt. }
  rewrite (take_lookup_total sims)
    by (unfold sims; by rewrite length_fmap).
  csimpl. rewrite (take_lookup_total R) by done. csimpl.
  unfold getrow. rewrite decide_True by done.
  rewrite decide_True.
  2:{ apply Forall_fmap. eapply Forall_impl; [exact Hnn|]. intros i Hi. simpl.
      rewrite Forall_forall in Hcols. apply Hcols.
      by apply list_elem_of_lookup_total_2. }
  csimpl. do 2 f_equal. unfold neighbors. fold R sims nn.
  f_equal.
  - unfold sparse_row_dot. f_equal.
    rewrite <- !list_fmap_compose, zip_fmap_fmap.
    apply omap_fmap_total. eapply Forall_impl; [exact Hnn|].
    intros i Hi. csimpl.
    assert (R !!! i ∈ R) as Hin by by apply list_elem_of_lookup_total_2.
    rewrite Forall_forall in Hst. destruct (Hst _ Hin) as [v Hv].
    unfold entry. rewrite Hv. csimpl. do 2 f_equal.
    unfold sims. by rewrite (list_lookup_total_fmap (sim_at S s)) by done.
  - do 2 f_equal. rewrite <- !list_fmap_compose.
    apply Forall_fmap_ext_1. eapply Forall_impl; [exact Hnn|].
    intros i Hi. csimpl. f_equal.
    unfold sims. by rewrite (list_lookup_total_fmap (sim_at S s)) by done.
Qed.

(** The prediction of a fitted model whose similarity array has the shape
    (n_users, n_users). *)
Lemma fitted_predict Y k sf m s t :
  fitted Y k sf m →
  ∃ Yb S,
    Ybar m = Some Yb ∧ Sim m = Some S ∧
    mu m = Some (user_means Y) ∧
    ((s < n_users m)%nat →
     user_means Y !! s = Some (Finite (mean_of Y s))) ∧
    (dense_shape S (n_users m) → (s < n_users m)%nat → (t < n_items m)%nat →
     predict_rating m s t =
       Ok (fadd
             (fdiv (fsum ((λ n, fmul (entry Yb t n) (sim_at S s n))
                            <$> neighbors S k Y s t))
                   (fadd (fsum ((λ n, fabs (sim_at S s n))
                                  <$> neighbors S k Y s t)) eps))
             (Finite (mean_of Y s)))).
Proof.
  intros Hfit. fitted_attrs Hfit.
  exists Yb, (sf (transpose Yb) (transpose Yb)).
  assert (∀ s, (s < n_users m)%nat →
               user_means Y !! s = Some (Finite (mean_of Y s))) as Hmean.
  { intros s' Hs. apply user_means_lookup. rewrite nbins_max; [lia|].
    unfold col0. by destruct Y. }
  repeat split; [done..|by apply Hmean|].
  intros [HlenS Hrows] Hs Ht.
  destruct (lookup_lt_is_Some_2 _ s ltac:(by rewrite HlenS)) as [row Hrow].
  assert (length row = n_users m) as Hlrow.
  { rewrite Forall_forall in Hrows. apply Hrows.
    by eapply list_elem_of_lookup_2. }
  assert (Forall (λ u, (u < n_users m)%nat) (raters Y t)) as Hr.
  { apply Forall_forall. intros u [v Hv]%raters_elem.
    apply col0_le_max in Hv. simpl in Hv. lia. }
  rewrite <- Hk.
  apply (predict_rating_value m Y _ Yb (user_means Y) s t row); try done.
  - by rewrite Hlrow.
  - rewrite EYb. simpl. lia.
  - rewrite EYb. simpl. by rewrite <- Hnu.
  - apply Forall_forall. intros u [v Hv]%raters_elem. rewrite EYb.
    destruct (Ybar_stored_rated Y
                (max_list (col1 Y) + 1, max_list (col0 Y) + 1)%nat u t v Hv)
      as [c Hc].
    rewrite Hc. eauto.
  - by apply Hmean.
Qed.

Lemma sim_at_finite S n (i j : nat) :
  dense_shape S n → finite_dense S → (i < n)%nat → (j < n)%nat →
  sim_at S i j = Finite (rsim S i j).
Proof.
  intros [Hlen Hrows] Hfin Hi Hj. unfold rsim, sim_at, finite_dense in *.
  destruct (lookup_lt_is_Some_2 S i ltac:(lia)) as [row Hrow].
  rewrite (list_lookup_total_correct S i row Hrow).
  rewrite Forall_forall in Hrows, Hfin.
  pose proof (list_elem_of_lookup_2 _ _ _ Hrow) as Hin.
  destruct (lookup_lt_is_Some_2 row j ltac:(rewrite (Hrows row Hin); lia))
    as [x Hx].
  rewrite (list_lookup_total_correct row j x Hx).
  specialize (Hfin row Hin). rewrite Forall_forall in Hfin.
  specialize (Hfin x (list_elem_of_lookup_2 _ _ _ Hx)). by destruct x.
Qed.

(** With a real-valued similarity array the prediction is a real number. *)
Lemma fitted_predict_real Y k sf m Yb S (s t : nat) :
  fitted Y k sf m → Ybar m = Some Yb → Sim m = Some S →
  dense_shape S (n_users m) → finite_dense S →
  (s < n_users m)%nat → (t < n_items m)%nat →
  predict_rating m s t = Ok (Finite (prediction Yb S k Y s t)).
Proof.
  intros Hfit HYb HS Hds Hfd Hs Ht.
  destruct (fitted_predict Y k sf m s t Hfit)
    as (Yb' & S' & HYb' & HS' & Hmu & Hmus & Hp).
  rewrite HS in HS'. injection HS' as <-.
  rewrite HYb in HYb'. injection HYb' as <-.
  rewrite Hp by done. clear Hp.
  pose proof Hfit
    as (Hne & HY & Hk & Hnu & Hni & _ & Yb' & HYb' & EYb & _)%fitted_inv.
  rewrite HYb in HYb'. injection HYb' as <-.
  assert (finite_matrix Yb) as HfYb.
  { intros p x Hx. rewrite EYb in Hx. by apply Ybar_finite in Hx as [c ->]. }
  assert (∀ n, n ∈ neighbors S k Y s t →
               sim_at S s n = Finite (rsim S s n)) as Hsim.
  { intros n [v Hv]%neighbors_subseteq%raters_elem.
    apply (sim_at_finite S (n_users m)); try done.
    apply col0_le_max in Hv. simpl in Hv. lia. }
  set (N := neighbors S k Y s t) in *.
  assert ((λ n, fmul (entry Yb t n) (sim_at S s n)) <$> N
          = Finite <$> ((λ n, rentry Yb t n * rsim S s n) <$> N)) as ->.
  { rewrite <- list_fmap_compose. apply Forall_fmap_ext_1, Forall_forall.
    intros n Hn. simpl. by rewrite (entry_rentry Yb t n HfYb), (Hsim n Hn). }
  assert ((λ n, fabs (sim_at S s n)) <$> N
          = Finite <$> ((λ n, Rabs (rsim S s n)) <$> N)) as ->.
  { rewrite <- list_fmap_compose. apply Forall_fmap_ext_1, Forall_forall.
    intros n Hn. simpl. by rewrite (Hsim n Hn). }
  rewrite !fsum_finite. unfold eps, prediction. fold N.
  pose proof (Rsum_abs_nonneg (rsim S s) N). pose proof eps_pos.
  cbn [fadd fdiv]. rewrite bool_decide_eq_false_2 by lra. done.
Qed.

Lemma predict_rating_no_raters Y k sf m S (s t : nat) :
  fitted Y k sf m → Sim m = Some S → dense_shape S (n_users m) →
  (s < n_users m)%nat → (t < n_items m)%nat → (∀ u v, (u, t, v) ∉ Y) →
  mu m = Some (user_means Y) ∧
  user_means Y !! s = Some (Finite (mean_of Y s)) ∧
  predict_rating m s t = Ok (Finite (mean_of Y s)).
Proof.
  intros Hfit HS Hds Hs Ht Hno.
  destruct (fitted_predict Y k sf m s t Hfit)
    as (Yb & S' & HYb & HS' & Hmu & Hmus & Hp).
  rewrite HS in HS'. injection HS' as <-.
  repeat split; [done|by apply Hmus|].
  rewrite Hp by done. rewrite neighbors_nil.
  2:{ destruct (raters Y t) as [|u l] eqn:E; [done|].
      assert (u ∈ raters Y t) as [v Hv]%raters_elem by (rewrite E; left).
      by destruct (Hno u v). }
  pose proof eps_pos as Heps. unfold eps.
  cbn [fmap list_fmap fsum foldr fadd fdiv].
  rewrite bool_decide_eq_false_2 by lra.
  cbn [fadd]. do 2 f_equal. unfold Rdiv. rewrite Rmult_0_l. lra.
Qed.

(** An item outside [range(n_items)] has no rater either, but there the
    row lookup in [Ybar] raises IndexError. *)
Lemma predict_rating_out_of_range Y k0 sf m S (s t : nat) :
  fitted Y k0 sf m → Sim m = Some S → dense_shape S (n_users m) →
  (s < n_users m)%nat → (n_items m ≤ t)%nat →
  predict_rating m s t = Raise IndexError.
Proof.
  intros Hfit HS [Hlen _] Hs Ht.
  pose proof Hfit
    as (Hne & HY & Hk & Hnu & Hni & Hmu & Yb & HYb & EYb & _)%fitted_inv.
  assert (raters Y t = []) as Hr.
  { destruct (raters Y t) as [|u l] eqn:E; [done|].
    assert (u ∈ raters Y t) as [v Hv%col1_le_max]%raters_elem
      by (rewrite E; left).
    simpl in Hv. lia. }
  destruct (lookup_lt_is_Some_2 S s ltac:(lia)) as [row Hrow].
  unfold predict_rating. rewrite HY, where_raters, Hr, HS, HYb. csimpl.
  unfold getitem. rewrite Hrow. csimpl.
  replace (slice_last (k m) (argsort [])) with (@nil nat)
    by (by destruct (k m)).
  csimpl. unfold getrow. rewrite decide_False; [done|].
  rewrite EYb. simpl. lia.
Qed.

(** ** Recommendation *)

Lemma predict_all_ok (m : uuCF) s (score : nat → float64) items :
  Forall (λ t, predict_rating m s t = Ok (score t)) items →
  predict_all m s items = Ok ((λ t, (t, score t)) <$> items).
Proof.
  induction 1 as [|t items Ht _ IH]; [done|]. csimpl. rewrite Ht. csimpl.
  by rewrite IH.
Qed.

Lemma predict_all_fst (m : uuCF) s items ps :
  predict_all m s items = Ok ps → ps.*1 = items.
Proof.
  revert ps. induction items as [|t items IH]; intros ps; csimpl.
  - by intros [= <-].
  - destruct (predict_rating m s t); [|done]. csimpl.
    destruct (predict_all m s items) as [ps'|]; [|done]. csimpl.
    intros [= <-]. csimpl. f_equal. by apply IH.
Qed.

Lemma candidates_spec Y n_items s t :
  t ∈ candidates Y n_items s ↔ (t < n_items)%nat ∧ ∀ v, (s, t, v) ∉ Y.
Proof.
  unfold candidates. rewrite list_elem_of_filter, elem_of_seq. split.
  - intros [Hnot Ht]. split; [lia|]. intros v Hv. apply Hnot.
    apply list_elem_of_fmap. exists (s, t). split; [done|].
    apply list_elem_of_fmap. exists (s, t, v). split; [done|].
    by apply list_elem_of_filter.
  - intros [Ht Hno]. split; [|lia].
    intros ([u i] & -> & Hin)%list_elem_of_fmap.
    apply list_elem_of_fmap in Hin as ([[u' i'] v] & [= <- <-] & Hin).
    apply list_elem_of_filter in Hin as [E Hin].
    simpl in *. subst. by destruct (Hno v).
Qed.

Lemma recommend_eq (m : uuCF) s K :
  recommend m s K =
  ps ← predict_all m s (candidates (Y_data m) (n_items m) s);
  Ok (take K (sorted_reverse snd ps)).*1.
Proof. done. Qed.

Lemma recommend_elem (m : uuCF) s K l t :
  recommend m s K = Ok l → t ∈ l →
  t ∈ candidates (Y_data m) (n_items m) s.
Proof.
  rewrite recommend_eq.
  destruct (predict_all m s _) as [ps|] eqn:E; [|done]. csimpl.
  intros [= <-] Hin. apply predict_all_fst in E. rewrite <- E.
  apply list_elem_of_fmap in Hin as (p & -> & Hp%subseteq_take).
  unfold sorted_reverse in Hp. rewrite sort_by_perm in Hp.
  apply list_elem_of_fmap. eauto.
Qed.

(** ** The example models *)

Lemma fitted_default Y :
  Y ≠ [] → fitted Y 40 cosine_similarity (fit_default Y).
Proof. intros HY. left. eexists. split; [|done]. by destruct Y. Qed.

Lemma mean_of_gap : mean_of Y_gap 0 = 4.
Proof. unfold mean_of. simpl. lra. Qed.

Lemma mean_of_dup : mean_of Y_dup 0 = 4.
Proof. unfold mean_of. simpl. lra. Qed.

Lemma unrated_gap u v : (u, 1%nat, v) ∉ Y_gap.
Proof.
  intros Hin. unfold Y_gap in Hin.
  repeat (apply elem_of_cons in Hin as [[=]|Hin]). by apply elem_of_nil in Hin.
Qed.

Lemma unrated_idle t v : (1%nat, t, v) ∉ Y_idle.
Proof.
  intros Hin. unfold Y_idle in Hin.
  repeat (apply elem_of_cons in Hin as [[=]|Hin]). by apply elem_of_nil in Hin.
Qed.

(** The attributes of [fit_default Y], for the proofs about the examples. *)
Ltac example_model Y :=
  assert (fitted Y 40 cosine_similarity (fit_default Y)) as Hfit
    by (by apply fitted_default);
  destruct (fitted_cosine _ _ _ Hfit)
    as (Yb & S & HYb & HS & _ & _ & _ & _ & Hds & Hfd).

(** The scenario of the specification: the means are 4, 4 and 1, the
    centred entries of user 0 are 1 and -1, those of users 1 and 2 are 0. *)
Lemma mean_of_scenario :
  mean_of Y_scenario 0 = 4 ∧ mean_of Y_scenario 1 = 4 ∧
  mean_of Y_scenario 2 = 1.
Proof. unfold mean_of. simpl. repeat split; lra. Qed.

Lemma scenario_means :
  user_means Y_scenario = [Finite 4; Finite 4; Finite 1].
Proof.
  destruct mean_of_scenario as (E0 & E1 & E2).
  apply list_eq. intros [|[|[|i]]].
  - rewrite user_means_lookup by (simpl; lia). by rewrite E0.
  - rewrite user_means_lookup by (simpl; lia). by rewrite E1.
  - rewrite user_means_lookup by (simpl; lia). by rewrite E2.
  - rewrite lookup_ge_None_2; [done|]. rewrite user_means_length. simpl. lia.
Qed.

Lemma scenario_Ybar Yb :
  Ybar (fit_default Y_scenario) = Some Yb →
  entry Yb 0 0 = Finite 1 ∧ entry Yb 1 0 = Finite (-1) ∧
  ∀ t, entry Yb t 1 = Finite 0.
Proof.
  intros [= <-]. destruct mean_of_scenario as (E0 & E1 & E2).
  unfold entry. rewrite !Ybar_lookup. unfold centered_at. rewrite E0.
  split; [simpl; f_equal; lra|]. split; [simpl; f_equal; lra|].
  intros t. rewrite Ybar_lookup. unfold centered_at. rewrite E1.
  destruct t as [|[|t]]; simpl; [f_equal; lra..|done].
Qed.

(** User 2 of the scenario rated item 0 only: item 1 is recommended. *)
Lemma recommend_scenario : recommend (fit_default Y_scenario) 2 10 = Ok [1%nat].
Proof.
  example_model Y_scenario.
  rewrite recommend_eq.
  change (candidates (Y_data (fit_default Y_scenario))
            (n_items (fit_default Y_scenario)) 2) with [1%nat].
  cbn [predict_all].
  rewrite (fitted_predict_real Y_scenario 40 cosine_similarity
             (fit_default Y_scenario) Yb S 2 1)
    by (try done; simpl; lia).
  done.
Qed.

(** ** Equal rows, and rows without a common item *)

Lemma Rsum_zero {A} (f : A → R) l :
  (∀ x, x ∈ l → f x = 0) → Rsum (f <$> l) = 0.
Proof.
  induction l as [|x l IH]; intros H; [done|].
  rewrite fmap_cons, Rsum_cons, IH, H; [lra|left|].
  intros y Hy. apply H. by right.
Qed.

Lemma rentry_Ybar Y shp s t :
  rentry (tocsr (mk_coo (centered Y (user_means Y)) (col1 Y) (col0 Y) shp)) t s
  = Rsum (centered_at Y s t).
Proof.
  unfold rentry. rewrite Ybar_lookup.
  by destruct (centered_at Y s t).
Qed.

Lemma sim_at_lookup S (i j : nat) x :
  (S !! i ≫= (.!! j)) = Some x → sim_at S i j = x.
Proof.
  unfold sim_at. destruct (S !! i) as [row|] eqn:E; [|done]. csimpl.
  intros Hx. rewrite (list_lookup_total_correct S i row E).
  by apply list_lookup_total_correct.
Qed.

Lemma cosine_similarity_zero X (i j : nat) :
  finite_matrix X → (i < (shape X).1)%nat → (j < (shape X).1)%nat →
  (∀ c, rentry X i c = 0 ∨ rentry X j c = 0) →
  (cosine_similarity X X !! i ≫= (.!! j)) = Some (Finite 0).
Proof.
  intros HX Hi Hj Hz.
  destruct (cosine_similarity_lookup X X i j HX HX Hi Hj) as (row & -> & Hr).
  csimpl. rewrite Hr. do 2 f_equal. apply Rsum_zero. intros c _.
  destruct (Hz c) as [-> | ->]; unfold Rdiv; lra.
Qed.

(** Two users with the same centred ratings are as similar as each is to
    itself. *)
Lemma cosine_similarity_same_row X (i j : nat) :
  finite_matrix X → (i < (shape X).1)%nat → (j < (shape X).1)%nat →
  (∀ c, rentry X i c = rentry X j c) →
  (cosine_similarity X X !! i ≫= (.!! j)) =
  Some (Finite (if decide (rsumsq X i = 0) then 0 else 1)).
Proof.
  intros HX Hi Hj Hrow.
  rewrite <- (cosine_similarity_self X i HX Hi).
  destruct (cosine_similarity_lookup X X i j HX HX Hi Hj) as (row & E & Hr).
  destruct (cosine_similarity_lookup X X i i HX HX Hi Hi) as (row' & E' & Hr').
  rewrite E in E'. injection E' as <-. rewrite E. csimpl. rewrite Hr, Hr'.
  assert (rsumsq X j = rsumsq X i) as Hs.
  { unfold rsumsq. apply f_equal, list_fmap_ext. intros _ c _.
    by rewrite Hrow. }
  assert (rnorm X j = rnorm X i) as -> by (unfold rnorm; by rewrite Hs).
  do 3 f_equal. apply list_fmap_ext. intros _ c _. by rewrite Hrow.
Qed.

(** ** The example with repeated rows *)

Lemma fitted_k k0 Y : Y ≠ [] → fitted Y k0 cosine_similarity (fit_k k0 Y).
Proof. intros HY. left. eexists. split; [|done]. by destruct Y. Qed.

Lemma mean_of_repeat :
  mean_of Y_repeat 0 = 3 ∧ mean_of Y_repeat 1 = 3 ∧ mean_of Y_repeat 2 = 3.
Proof. unfold mean_of. simpl. repeat split; lra. Qed.

(** User 0 is as similar to user 1 as can be, and not at all to user 2. *)
Lemma repeat_sims S :
  Sim (fit_k 3 Y_repeat) = Some S →
  sim_at S 0 1 = Finite 1 ∧ sim_at S 0 2 = Finite 0.
Proof.
  intros HS.
  assert (fitted Y_repeat 3 cosine_similarity (fit_k 3 Y_repeat)) as Hfit
    by (by apply fitted_k).
  destruct (fitted_cosine _ _ _ Hfit)
    as (Yb & S' & HYb & HS' & ES & Hsh & Hfin & _ & _ & _).
  rewrite HS in HS'. injection HS' as <-.
  pose proof Hfit as (_ & _ & _ & _ & _ & _ & Yb' & HYb' & EYb & _)%fitted_inv.
  rewrite HYb in HYb'. injection HYb' as <-.
  destruct mean_of_repeat as (E0 & E1 & E2).
  assert (∀ i c, rentry (transpose Yb) i c = Rsum (centered_at Y_repeat i c))
    as Hre.
  { intros i c. by rewrite transpose_rentry, EYb, rentry_Ybar. }
  pose proof (transpose_finite Yb Hfin) as HfT.
  split; apply sim_at_lookup; rewrite ES.
  - rewrite cosine_similarity_same_row; try done;
      try (cbn [shape transpose]; rewrite Hsh; simpl; lia).
    + rewrite decide_False; [done|]. unfold rsumsq. cbn [shape transpose].
      rewrite Hsh. simpl. rewrite !Hre. unfold centered_at. rewrite E0.
      simpl. lra.
    + intros c. rewrite !Hre. unfold centered_at. rewrite E0, E1.
      destruct c as [|[|[|c]]]; simpl; lra.
  - apply cosine_similarity_zero; try done;
      try (cbn [shape transpose]; rewrite Hsh; simpl; lia).
    intros c. rewrite !Hre. unfold centered_at. rewrite E0, E2.
    destruct c as [|[|[|c]]]; simpl; lra.
Qed.

Lemma argsort_repeat :
  argsort [Finite 0; Finite 1; Finite 1; Finite 1] = [0; 1; 2; 3]%nat.
Proof.
  unfold argsort, sort_by. simpl.
  repeat (rewrite bool_decide_eq_false_2 by lra; simpl). done.
Qed.

(** * The claims *)

(** C1 (as amended).  For a fitted model whose similarity array has the
    shape (n_users, n_users), a user [s] below [n_users] and an item [t]
    below [n_items] that nobody rated, [predict_rating] (and [pred]) raise
    nothing: the empty sums give 0 / (0 + 1e-8) = 0 and the result is the
    mean [mu[s]] of the user. *)
Theorem predict_rating_unrated_target Y k0 sf m S (s t : nat) :
  fitted Y k0 sf m → Sim m = Some S → dense_shape S (n_users m) →
  (s < n_users m)%nat → (t < n_items m)%nat → (∀ u v, (u, t, v) ∉ Y) →
  ∃ mus mu_s,
    mu m = Some mus ∧ mus !! s = Some (Finite mu_s) ∧
    predict_rating m s t = Ok (Finite mu_s) ∧
    Book.pred m s t = Ok (Finite mu_s).
Proof.
  intros Hfit HS Hds Hs Ht Hno.
  destruct (predict_rating_no_raters Y k0 sf m S s t) as (Hmu & Hmus & Hp);
    try done.
  exists (user_means Y), (mean_of Y s). repeat split; try done.
  by rewrite (fitted_pred Y k0 sf m).
Qed.

(** C1, as stated, fails: item 1 of [Y_gap] has no rater, and the
    prediction for (user 0, item 1) is the plain value 4, the mean of
    user 0, not an error. *)
Lemma predict_rating_unrated_target_silent :
  fitted Y_gap 40 cosine_similarity (fit_default Y_gap) ∧
  (∀ u v, (u, 1%nat, v) ∉ Y_gap) ∧
  predict_rating (fit_default Y_gap) 0 1 = Ok (Finite 4) ∧
  Book.pred (fit_default Y_gap) 0 1 = Ok (Finite 4).
Proof.
  example_model Y_gap.
  destruct (predict_rating_no_raters Y_gap 40 cosine_similarity
              (fit_default Y_gap) S 0 1) as (_ & _ & Hp);
    [done|done|done|simpl; lia|simpl; lia|apply unrated_gap|].
  rewrite mean_of_gap in Hp.
  repeat split; [done|apply unrated_gap|done|].
  by rewrite (fitted_pred _ _ _ _ _ _ Hfit).
Qed.

Lemma predict_rating_unrated_target_witness :
  ∃ mus mu_s,
    mu (fit_default Y_gap) = Some mus ∧ mus !! 0%nat = Some (Finite mu_s) ∧
    predict_rating (fit_default Y_gap) 0 1 = Ok (Finite mu_s) ∧
    Book.pred (fit_default Y_gap) 0 1 = Ok (Finite mu_s).
Proof.
  example_model Y_gap.
  apply (predict_rating_unrated_target Y_gap 40 cosine_similarity
           (fit_default Y_gap) S 0 1);
    [done|done|done|simpl; lia|simpl; lia|apply unrated_gap].
Defined.

(** C2 (as amended).  After [fit], for a rating row ([s], [t], [v])
    whose pair ([s], [t]) occurs in no other row,
    [Ybar[t, s] + mu[s]] is [v]. *)
Theorem normalization_roundtrip Y k sf m (s t : nat) v :
  fitted Y k sf m → (s, t, v) ∈ Y →
  length (filter (λ r, r.1 = (s, t)) Y) = 1%nat →
  ∃ Yb mus, Ybar m = Some Yb ∧ mu m = Some mus ∧
    fadd (entry Yb t s) (mus !!! s) = Finite v.
Proof.
  intros Hfit Hin Huniq.
  fitted_attrs Hfit.
  exists Yb, (user_means Y). repeat split; try done.
  assert (user_means Y !!! s = Finite (mean_of Y s)) as ->.
  { apply list_lookup_total_correct, user_means_lookup.
    by apply (col0_lt_nbins Y (s, t, v)). }
  unfold entry. rewrite EYb, Ybar_lookup. unfold centered_at.
  assert ((s, t, v) ∈ filter (λ r, r.1 = (s, t)) Y) as Hin'
    by by apply list_elem_of_filter.
  destruct (filter (λ r, r.1 = (s, t)) Y) as [|r [|? ?]]; try done.
  apply list_elem_of_singleton in Hin' as <-. simpl. f_equal. lra.
Qed.

(** C2, as stated, fails: in [Y_dup] the pair (user 0, item 0) is rated 5
    and 3; the mean is 4, the two centred values 1 and -1 are summed into
    [Ybar[0, 0] = 0], and [Ybar[0, 0] + mu[0]] is 4, not 5. *)
Lemma normalization_roundtrip_duplicate :
  ∃ Yb mus,
    fitted Y_dup 40 cosine_similarity (fit_default Y_dup) ∧
    (0%nat, 0%nat, 5) ∈ Y_dup ∧
    Ybar (fit_default Y_dup) = Some Yb ∧ mu (fit_default Y_dup) = Some mus ∧
    fadd (entry Yb 0 0) (mus !!! 0%nat) = Finite 4 ∧
    fadd (entry Yb 0 0) (mus !!! 0%nat) ≠ Finite 5.
Proof.
  assert (fitted Y_dup 40 cosine_similarity (fit_default Y_dup)) as Hfit
    by by apply fitted_default.
  destruct (fitted_inv _ _ _ _ Hfit)
    as (_ & _ & _ & _ & _ & Hmu & Yb & HYb & EYb & _).
  exists Yb, (user_means Y_dup).
  assert (fadd (entry Yb 0 0) (user_means Y_dup !!! 0%nat) = Finite 4) as E.
  { rewrite (list_lookup_total_correct _ _ (Finite 4)).
    2:{ rewrite user_means_lookup by (simpl; lia). by rewrite mean_of_dup. }
    unfold entry. rewrite EYb, Ybar_lookup. unfold centered_at.
    rewrite mean_of_dup. simpl. f_equal. lra. }
  split; [done|]. split; [left|]. split; [done|]. split; [done|].
  split; [done|]. rewrite E. intros [=]. lra.
Qed.

Lemma normalization_roundtrip_witness :
  ∃ Yb mus,
    Ybar (fit_default Y_scenario) = Some Yb ∧
    mu (fit_default Y_scenario) = Some mus ∧
    fadd (entry Yb 1 0) (mus !!! 0%nat) = Finite 3.
Proof.
  apply (normalization_roundtrip Y_scenario 40 cosine_similarity
           (fit_default Y_scenario) 0 1 3).
  - by apply fitted_default.
  - unfold Y_scenario. right. left.
  - reflexivity.
Defined.



(** C4.  When no user has two rating rows for item [t], [predict_rating]
    with [k >= 1] computes its weighted mean over a list [N] of distinct
    raters of [t]: [N] has [min k |R(t)|] members, every rater left out is
    at most as similar to [s] as every member of [N] (in numpy's sort
    order), and when [R(t)] has at most [k] members all of them are in
    [N].  The call raises nothing: it returns the value of the formula
    over [N], and so does [pred]. *)
Theorem neighbors_top_k Y k0 sf m Yb S (s t : nat) :
  fitted Y k0 sf m → Ybar m = Some Yb → Sim m = Some S → (1 ≤ k0)%nat →
  dense_shape S (n_users m) → (s < n_users m)%nat → (t < n_items m)%nat →
  NoDup (raters Y t) →
  ∃ N mus mu_s,
    N = neighbors S k0 Y s t ∧
    mu m = Some mus ∧ mus !! s = Some mu_s ∧
    predict_rating m s t =
      Ok (fadd
            (fdiv (fsum ((λ n, fmul (entry Yb t n) (sim_at S s n)) <$> N))
                  (fadd (fsum ((λ n, fabs (sim_at S s n)) <$> N))
                        (Finite (/ 10 ^ 8))))
            mu_s) ∧
    Book.pred m s t = predict_rating m s t ∧
    NoDup N ∧
    (∀ n, n ∈ N → ∃ v, (n, t, v) ∈ Y) ∧
    length N = k0 `min` length (raters Y t) ∧
    (∀ x y v, (x, t, v) ∈ Y → x ∉ N → y ∈ N →
              np_le (sim_at S s x) (sim_at S s y) = true) ∧
    ((length (raters Y t) ≤ k0)%nat → ∀ x v, (x, t, v) ∈ Y → x ∈ N).
Proof.
  intros Hfit HYb HS Hk Hds Hs Ht Hnd.
  destruct (neighbors_spec S k0 Y s t Hk)
    as (Hlen & (rest & Hperm & Hle) & Hall).
  destruct (fitted_predict Y k0 sf m s t Hfit)
    as (Yb' & S' & HYb' & HS' & Hmu & Hmus & Hp).
  rewrite HS in HS'. injection HS' as <-.
  rewrite HYb in HYb'. injection HYb' as <-.
  exists (neighbors S k0 Y s t), (user_means Y), (Finite (mean_of Y s)).
  split; [done|]. split; [done|]. split; [by apply Hmus|].
  split; [by apply Hp|]. split; [by apply (fitted_pred Y k0 sf)|].
  split; [|split; [|split; [done|split]]].
  - rewrite <- Hperm in Hnd. by apply NoDup_app in Hnd as (_ & _ & ?).
  - intros n Hn%neighbors_subseteq. by apply raters_elem.
  - intros x y v Hx Hnot Hy. apply Hle; [|done].
    assert (x ∈ rest ++ neighbors S k0 Y s t) as [?|?]%elem_of_app; [|done..].
    rewrite Hperm. apply raters_elem. eauto.
  - intros Hsmall x v Hx. rewrite (Hall Hsmall). apply raters_elem. eauto.
Qed.

(** With repeated rows of a pair every row is a rater of its own.  In
    [Y_repeat] item 0 has the raters 1 and 2, fewer than [k = 3], but user
    1 rated it three times: for user 0 the three rows of user 1 are the
    neighbours, and user 2 is left out. *)
Lemma neighbors_top_k_repeated :
  ∃ Yb S,
    Ybar (fit_k 3 Y_repeat) = Some Yb ∧ Sim (fit_k 3 Y_repeat) = Some S ∧
    raters Y_repeat 0 = [2; 1; 1; 1]%nat ∧
    neighbors S 3 Y_repeat 0 0 = [1; 1; 1]%nat ∧
    predict_rating (fit_k 3 Y_repeat) 0 0 =
      Ok (fadd
            (fdiv (fsum ((λ n, fmul (entry Yb 0 n) (sim_at S 0 n))
                           <$> [1; 1; 1]%nat))
                  (fadd (fsum ((λ n, fabs (sim_at S 0 n)) <$> [1; 1; 1]%nat))
                        (Finite (/ 10 ^ 8))))
            (Finite 3)).
Proof.
  assert (fitted Y_repeat 3 cosine_similarity (fit_k 3 Y_repeat)) as Hfit
    by (by apply fitted_k).
  destruct (fitted_cosine _ _ _ Hfit)
    as (Yb & S & HYb & HS & _ & _ & _ & _ & Hds & _).
  destruct (repeat_sims S HS) as [E1 E2].
  assert (neighbors S 3 Y_repeat 0 0 = [1; 1; 1]%nat) as HN.
  { unfold neighbors.
    change (raters Y_repeat 0) with [2; 1; 1; 1]%nat.
    cbn [fmap list_fmap]. rewrite E1, E2, argsort_repeat. done. }
  exists Yb, S. split; [done|]. split; [done|]. split; [done|].
  split; [done|].
  destruct (fitted_predict Y_repeat 3 cosine_similarity _ 0 0 Hfit)
    as (Yb' & S' & HYb' & HS' & _ & _ & Hp).
  rewrite HS in HS'. injection HS' as <-.
  rewrite HYb in HYb'. injection HYb' as <-.
  rewrite Hp by (try done; simpl; lia). rewrite HN.
  destruct mean_of_repeat as (-> & _). done.
Qed.

Lemma neighbors_top_k_witness :
  ∃ Yb S N mu_s,
    Ybar (fit_k 1 Y_scenario) = Some Yb ∧ Sim (fit_k 1 Y_scenario) = Some S ∧
    N = neighbors S 1 Y_scenario 2 1 ∧ length N = 1%nat ∧
    (∀ x y v, (x, 1%nat, v) ∈ Y_scenario → x ∉ N → y ∈ N →
              np_le (sim_at S 2 x) (sim_at S 2 y) = true) ∧
    predict_rating (fit_k 1 Y_scenario) 2 1 =
      Ok (fadd
            (fdiv (fsum ((λ n, fmul (entry Yb 1 n) (sim_at S 2 n)) <$> N))
                  (fadd (fsum ((λ n, fabs (sim_at S 2 n)) <$> N))
                        (Finite (/ 10 ^ 8))))
            mu_s).
Proof.
  assert (fitted Y_scenario 1 cosine_similarity (fit_k 1 Y_scenario)) as Hfit
    by (by apply fitted_k).
  destruct (fitted_cosine _ _ _ Hfit)
    as (Yb & S & HYb & HS & _ & _ & _ & _ & Hds & _).
  destruct (neighbors_top_k Y_scenario 1 cosine_similarity
              (fit_k 1 Y_scenario) Yb S 2 1)
    as (N & mus & mu_s & HN & _ & _ & Hp & _ & _ & _ & Hlen & Hle & _);
    [done|done|done|lia|done|simpl; lia|simpl; lia| |].
  - apply (bool_decide_unpack _). by vm_compute.
  - exists Yb, S, N, mu_s. by repeat split.
Defined.

(** C5.  After [fit] (of either notebook), a user [s] below [n_users]
    without any rating row has [mu[s] = 0], a real number and not NaN, and
    no position of column [s] of [Ybar] is stored. *)
Theorem zero_rating_subject Y k sf m (s : nat) :
  fitted Y k sf m → (s < n_users m)%nat → (∀ t v, (s, t, v) ∉ Y) →
  ∃ mus Yb, mu m = Some mus ∧ Ybar m = Some Yb ∧
    mus !! s = Some (Finite 0) ∧ ∀ t, stored Yb !! (t, s) = None.
Proof.
  intros Hfit Hs Hno.
  fitted_attrs Hfit.
  exists (user_means Y), Yb. repeat split; try done.
  - rewrite user_means_lookup.
    2:{ rewrite nbins_max; [lia|]. unfold col0. by destruct Y. }
    do 2 f_equal. unfold mean_of.
    destruct (ratings_of Y s) as [|v l] eqn:E; [done|]. exfalso.
    unfold ratings_of, col2 in E.
    destruct (filter (λ r, r.1.1 = s) Y) as [|[[u i] w] l'] eqn:F; [done|].
    assert ((u, i, w) ∈ filter (λ r, r.1.1 = s) Y) as Hin by (rewrite F; left).
    apply list_elem_of_filter in Hin as [Hu Hin]. simpl in Hu. subst u.
    by destruct (Hno i w).
  - intros t. rewrite EYb, Ybar_lookup.
    by rewrite (proj2 (centered_at_nil Y s t)).
Qed.

Lemma zero_rating_subject_witness :
  ∃ mus Yb,
    mu (fit_default Y_idle) = Some mus ∧ Ybar (fit_default Y_idle) = Some Yb ∧
    mus !! 1%nat = Some (Finite 0) ∧ ∀ t, stored Yb !! (t, 1%nat) = None.
Proof.
  apply (zero_rating_subject Y_idle 40 cosine_similarity
           (fit_default Y_idle) 1).
  - by apply fitted_default.
  - simpl. lia.
  - apply unrated_idle.
Defined.

(** C6.  No item returned by [recommend(s, K)] is the item of a rating row
    of user [s]; and [recommend] does return a list when [s] is below
    [n_users] and the similarity array has the shape (n_users, n_users). *)
Theorem recommend_excludes_rated Y k sf m S (s K : nat) :
  fitted Y k sf m → Sim m = Some S →
  (∀ l, recommend m s K = Ok l → ∀ t v, t ∈ l → (s, t, v) ∉ Y) ∧
  (dense_shape S (n_users m) → (s < n_users m)%nat →
   ∃ l, recommend m s K = Ok l).
Proof.
  intros Hfit HS. split.
  - intros l Hl t v Ht. eapply recommend_elem in Ht; [|done].
    rewrite (fitted_Y_data _ _ _ _ Hfit) in Ht.
    by apply candidates_spec in Ht as [_ Hno].
  - intros Hds Hs. rewrite recommend_eq.
    destruct (fitted_predict Y k sf m s 0%nat Hfit)
      as (Yb & S' & HYb & HS' & _).
    rewrite HS in HS'. injection HS' as <-.
    rewrite (predict_all_ok m s (λ t,
      fadd (fdiv (fsum ((λ n, fmul (entry Yb t n) (sim_at S s n))
                          <$> neighbors S k Y s t))
                 (fadd (fsum ((λ n, fabs (sim_at S s n))
                                <$> neighbors S k Y s t)) eps))
           (Finite (mean_of Y s)))).
    + csimpl. eauto.
    + apply Forall_forall. intros t [Ht _]%candidates_spec.
      destruct (fitted_predict Y k sf m s t Hfit)
        as (Yb' & S' & HYb' & HS' & _ & _ & Hp).
      rewrite HS in HS'. injection HS' as <-.
      rewrite HYb in HYb'. injection HYb' as <-. by apply Hp.
Qed.

Lemma recommend_excludes_rated_witness :
  recommend (fit_default Y_scenario) 2 10 = Ok [1%nat] ∧
  ∀ t v, t ∈ [1%nat] → (2%nat, t, v) ∉ Y_scenario.
Proof.
  example_model Y_scenario.
  destruct (recommend_excludes_rated Y_scenario 40 cosine_similarity
              (fit_default Y_scenario) S 2 10 Hfit HS) as [Hex _].
  split; [apply recommend_scenario|]. apply Hex, recommend_scenario.
Defined.

(** C7.  With a real-valued similarity array of shape (n_users, n_users),
    [recommend(s, K)] returns [min K |candidates|] candidates, each
    scored at least as high as every candidate returned after it and as
    every candidate left out. *)
Theorem recommend_top_k Y k sf m S (s K : nat) :
  fitted Y k sf m → Sim m = Some S →
  dense_shape S (n_users m) → finite_dense S → (s < n_users m)%nat →
  ∃ (score : nat → R) (l : list nat),
    (∀ t, t ∈ candidates Y (n_items m) s →
          predict_rating m s t = Ok (Finite (score t))) ∧
    recommend m s K = Ok l ∧
    length l = K `min` length (candidates Y (n_items m) s) ∧
    l ⊆ candidates Y (n_items m) s ∧
    (∀ i j a b, (i < j)%nat → l !! i = Some a → l !! j = Some b →
                score b <= score a) ∧
    (∀ a c, a ∈ l → c ∈ candidates Y (n_items m) s → c ∉ l →
            score c <= score a).
Proof.
  intros Hfit HS Hds Hfd Hs.
  destruct (fitted_predict Y k sf m s 0%nat Hfit)
    as (Yb & S' & HYb & HS' & _).
  rewrite HS in HS'. injection HS' as <-.
  set (cands := candidates Y (n_items m) s).
  set (score := prediction Yb S k Y s).
  assert (∀ t, t ∈ cands →
               predict_rating m s t = Ok (Finite (score t))) as Hscore.
  { intros t [Ht _]%candidates_spec.
    by apply (fitted_predict_real Y k sf m Yb S s t). }
  set (ps := (λ t, (t, Finite (score t))) <$> cands).
  set (Ls := sorted_reverse snd ps).
  assert (recommend m s K = Ok (take K Ls).*1) as Hrec.
  { rewrite recommend_eq, (fitted_Y_data _ _ _ _ Hfit). fold cands.
    rewrite (predict_all_ok m s (λ t, Finite (score t))); [done|].
    by apply Forall_forall. }
  assert (Ls ≡ₚ ps) as Hperm by apply sort_by_perm.
  assert (∀ p, p ∈ Ls → p.1 ∈ cands ∧ p.2 = Finite (score p.1)) as HLs.
  { intros p. rewrite Hperm. unfold ps.
    by intros (t & -> & Ht)%list_elem_of_fmap. }
  assert (StronglySorted (λ a b, negb (flt a.2 b.2) = true) Ls) as Hsorted.
  { apply (sort_by_sorted _ (λ p, is_finite p.2)).
    - apply flt_total_finite.
    - apply flt_trans_finite.
    - apply Forall_forall. by intros p (t & -> & Ht)%list_elem_of_fmap. }
  assert (∀ p q, p ∈ Ls → q ∈ Ls → negb (flt p.2 q.2) = true →
                 score q.1 <= score p.1) as Hord.
  { intros p q [_ Hp]%HLs [_ Hq]%HLs. rewrite Hp, Hq. simpl.
    rewrite negb_true_iff, bool_decide_eq_false. lra. }
  exists score, (take K Ls).*1. repeat split; try done.
  - rewrite length_fmap, length_take, Hperm. unfold ps.
    by rewrite length_fmap.
  - intros t (p & -> & Hp%subseteq_take)%list_elem_of_fmap. by apply HLs.
  - intros i j a b Hij Hi Hj. rewrite list_lookup_fmap in Hi, Hj.
    destruct (take K Ls !! i) as [p|] eqn:Ep; [|done].
    destruct (take K Ls !! j) as [q|] eqn:Eq; [|done].
    injection Hi as <-. injection Hj as <-.
    rewrite <- (take_drop K Ls) in Hsorted.
    apply StronglySorted_app_1_l in Hsorted.
    apply Hord.
    + eapply subseteq_take, list_elem_of_lookup_2, Ep.
    + eapply subseteq_take, list_elem_of_lookup_2, Eq.
    + by apply (StronglySorted_lookup_lt _ _ i j p q Hsorted).
  - intros a c (p & -> & Hp)%list_elem_of_fmap Hc Hnot.
    assert ((c, Finite (score c)) ∈ Ls) as Hin.
    { rewrite Hperm. unfold ps. apply list_elem_of_fmap. eauto. }
    rewrite <- (take_drop K Ls) in Hin, Hsorted.
    apply elem_of_app in Hin as [Hin|Hin].
    + destruct Hnot. apply list_elem_of_fmap. by exists (c, Finite (score c)).
    + apply (Hord p (c, Finite (score c))).
      * by eapply subseteq_take.
      * by eapply subseteq_drop.
      * by apply (StronglySorted_app_1_elem_of _ _ _ _ _ Hsorted).
Qed.

Lemma recommend_top_k_witness :
  ∃ (score : nat → R) (l : list nat),
    (∀ t, t ∈ candidates Y_scenario 2 2 →
          predict_rating (fit_default Y_scenario) 2 t = Ok (Finite (score t))) ∧
    recommend (fit_default Y_scenario) 2 10 = Ok l ∧
    length l = 10 `min` length (candidates Y_scenario 2 2) ∧
    l ⊆ candidates Y_scenario 2 2 ∧
    (∀ i j a b, (i < j)%nat → l !! i = Some a → l !! j = Some b →
                score b <= score a) ∧
    (∀ a c, a ∈ l → c ∈ candidates Y_scenario 2 2 → c ∉ l →
            score c <= score a).
Proof.
  example_model Y_scenario.
  apply (recommend_top_k Y_scenario 40 cosine_similarity
           (fit_default Y_scenario) S 2 10);
    [done|done|done|done|simpl; lia].
Defined.

(** C8.  After [fit] with [cosine_similarity], the similarity array is
    symmetric: for users [i], [j] below [n_users] the entries [S[i, j]]
    and [S[j, i]] exist and are equal. *)
Theorem similarity_symmetric Y k m S (i j : nat) :
  fitted Y k cosine_similarity m → Sim m = Some S →
  (i < n_users m)%nat → (j < n_users m)%nat →
  ∃ x, (S !! i ≫= (.!! j)) = Some x ∧ (S !! j ≫= (.!! i)) = Some x.
Proof.
  intros (Yb & S' & HYb & HS & -> & Hsh & _)%fitted_cosine HS' Hi Hj.
  rewrite HS in HS'. injection HS' as <-.
  apply cosine_similarity_sym; cbn [shape transpose]; by rewrite Hsh.
Qed.

Lemma similarity_symmetric_witness :
  ∃ S x, Sim (fit_default Y_scenario) = Some S ∧
    (S !! 0%nat ≫= (.!! 2%nat)) = Some x ∧
    (S !! 2%nat ≫= (.!! 0%nat)) = Some x.
Proof.
  example_model Y_scenario.
  destruct (similarity_symmetric Y_scenario 40 (fit_default Y_scenario) S 0 2)
    as (x & H); [done|done|simpl; lia|simpl; lia|].
  by exists S, x.
Defined.




(** C10.  After [fit], the entry of [Ybar] at (item [t], user [s]) of a
    rated pair is the sum of the centred values of all the rating rows of
    that pair, not the value written last. *)
Theorem duplicates_are_summed Y k sf m (s t : nat) v :
  fitted Y k sf m → (s, t, v) ∈ Y →
  ∃ Yb, Ybar m = Some Yb ∧
    stored Yb !! (t, s) = Some (Finite (Rsum (centered_at Y s t))).
Proof.
  intros Hfit Hin.
  fitted_attrs Hfit.
  exists Yb. split; [done|]. rewrite EYb, Ybar_lookup.
  destruct (centered_at Y s t) eqn:E; [|done].
  by eapply centered_at_nil in E.
Qed.

Lemma duplicates_are_summed_witness :
  ∃ Yb, Ybar (fit_default Y_dup) = Some Yb ∧
    stored Yb !! (0%nat, 0%nat) = Some (Finite (Rsum (centered_at Y_dup 0 0))) ∧
    centered_at Y_dup 0 0 = [5 - 4; 3 - 4].
Proof.
  destruct (duplicates_are_summed Y_dup 40 cosine_similarity
              (fit_default Y_dup) 0 0 5) as (Yb & HYb & Hsum).
  - by apply fitted_default.
  - left.
  - exists Yb. repeat split; [done..|].
    unfold centered_at. by rewrite mean_of_dup.
Defined.

(** * Further properties of the class *)

(** ** Construction, and use before [fit] *)

(** X1.  [__init__] of either notebook raises ValueError on an array
    without rows.  On any other array it returns a model that keeps the
    array and whose counts are one more than the largest user id and the
    largest item id: the ids of every row are below the counts, and some
    row carries the id [n_users - 1], some row the id [n_items - 1]. *)
Theorem init_counts Y k0 sf :
  (Y = [] → init Y k0 sf = Raise ValueError ∧
            Book.init Y k0 sf = Raise ValueError) ∧
  (Y ≠ [] → ∃ m, init Y k0 sf = Ok m ∧ Book.init Y k0 sf = Ok m ∧
     Y_data m = Y ∧
     (∀ r, r ∈ Y → (r.1.1 < n_users m)%nat ∧ (r.1.2 < n_items m)%nat) ∧
     (∃ r, r ∈ Y ∧ n_users m = (r.1.1 + 1)%nat) ∧
     (∃ r, r ∈ Y ∧ n_items m = (r.1.2 + 1)%nat)).
Proof.
  split; [by intros ->|]. intros HY.
  assert (∃ r, r ∈ Y ∧ max_list (col0 Y) = r.1.1) as H0.
  { assert (max_list (col0 Y) ∈ col0 Y) as Hin
      by (apply max_list_elem_of; by destruct Y).
    apply list_elem_of_fmap in Hin as (r & E & Hr). eauto. }
  assert (∃ r, r ∈ Y ∧ max_list (col1 Y) = r.1.2) as H1.
  { assert (max_list (col1 Y) ∈ col1 Y) as Hin
      by (apply max_list_elem_of; by destruct Y).
    apply list_elem_of_fmap in Hin as (r & E & Hr). eauto. }
  exists {| Y_data := Y; k := k0; sim_func := sf; Ybar := None;
            n_users := max_list (col0 Y) + 1;
            n_items := max_list (col1 Y) + 1; mu := None; Sim := None |}.
  cbn [Y_data n_users n_items].
  split; [by destruct Y|]. split; [by destruct Y|]. split; [done|].
  split; [|split].
  - intros r Hr. pose proof (col0_le_max Y r Hr).
    pose proof (col1_le_max Y r Hr). lia.
  - destruct H0 as (r & Hr & ->). eauto.
  - destruct H1 as (r & Hr & ->). eauto.
Qed.

Lemma init_counts_witness :
  ∃ m, init Y_scenario 40 cosine_similarity = Ok m ∧
    n_users m = 3%nat ∧ n_items m = 2%nat.
Proof.
  destruct (init_counts Y_scenario 40 cosine_similarity) as [_ H].
  destruct (H ltac:(done)) as (m & Hm & _). exists m. split; [done|].
  unfold init in Hm. simpl in Hm. by injection Hm as <-.
Defined.

(** X2.  Before [fit], [predict_rating] raises TypeError (the attribute
    [S] is still [None]) and [pred] of the older notebook raises
    AttributeError (its [__init__] never sets [S]), whatever the ids.
    [recommend] raises the same TypeError as soon as the user has an
    unrated item, and returns the empty list when there is none. *)
Theorem predict_before_fit Y k0 sf m0 (u i K : nat) :
  init Y k0 sf = Ok m0 →
  predict_rating m0 u i = Raise TypeError ∧
  Book.pred m0 u i = Raise AttributeError ∧
  (candidates Y (n_items m0) u ≠ [] → recommend m0 u K = Raise TypeError) ∧
  (candidates Y (n_items m0) u = [] → recommend m0 u K = Ok []).
Proof.
  intros Hi. unfold init in Hi.
  destruct (np_max (col0 Y)) as [a|]; [|done].
  destruct (np_max (col1 Y)) as [b|]; [|done].
  simpl in Hi. injection Hi as <-.
  assert (∀ t, predict_rating
             {| Y_data := Y; k := k0; sim_func := sf; Ybar := None;
                n_users := a + 1; n_items := b + 1; mu := None;
                Sim := None |} u t = Raise TypeError) as Hp.
  { intros t. unfold predict_rating. cbn [Y_data Sim].
    by rewrite where_raters. }
  split; [apply Hp|]. split.
  - unfold Book.pred. cbn [Y_data Sim]. by rewrite where_raters.
  - rewrite recommend_eq. cbn [Y_data n_items]. split.
    + destruct (candidates Y (b + 1) u) as [|t l]; [done|]. intros _.
      cbn [predict_all]. by rewrite Hp.
    + intros ->. by destruct K.
Qed.

Lemma predict_before_fit_witness :
  predict_rating
    {| Y_data := Y_scenario; k := 40; sim_func := cosine_similarity;
       Ybar := None; n_users := 3; n_items := 2; mu := None; Sim := None |}
    2 1 = Raise TypeError.
Proof.
  destruct (predict_before_fit Y_scenario 40 cosine_similarity
              {| Y_data := Y_scenario; k := 40;
                 sim_func := cosine_similarity; Ybar := None; n_users := 3;
                 n_items := 2; mu := None; Sim := None |} 2 1 10)
    as [H _]; [reflexivity|exact H].
Defined.

(** ** Ids outside the ranges *)

(** A user id outside the similarity array. *)
Lemma predict_rating_unknown_user Y k0 sf m S (s t : nat) :
  fitted Y k0 sf m → Sim m = Some S → dense_shape S (n_users m) →
  (n_users m ≤ s)%nat → predict_rating m s t = Raise IndexError.
Proof.
  intros Hfit HS' [Hlen _] Hs. fitted_attrs Hfit.
  unfold predict_rating. rewrite HY, where_raters, HS'. csimpl.
  unfold getitem. rewrite lookup_ge_None_2; [done|lia].
Qed.

(** X3.  On a fitted model whose similarity array has the shape
    (n_users, n_users), [predict_rating] raises IndexError when the user
    id is not below [n_users] or the item id is not below [n_items]. *)
Theorem predict_rating_index_error Y k0 sf m S (s t : nat) :
  fitted Y k0 sf m → Sim m = Some S → dense_shape S (n_users m) →
  (n_users m ≤ s)%nat ∨ (n_items m ≤ t)%nat →
  predict_rating m s t = Raise IndexError.
Proof.
  intros Hfit HS Hds Hout.
  destruct (decide (s < n_users m)%nat) as [Hs|Hs].
  - destruct Hout as [?|Ht]; [lia|].
    by apply (predict_rating_out_of_range Y k0 sf m S).
  - apply (predict_rating_unknown_user Y k0 sf m S); [done..|lia].
Qed.

Lemma predict_rating_index_error_witness :
  predict_rating (fit_default Y_scenario) 3 0 = Raise IndexError ∧
  predict_rating (fit_default Y_scenario) 0 2 = Raise IndexError.
Proof.
  example_model Y_scenario.
  split;
    apply (predict_rating_index_error Y_scenario 40 cosine_similarity
             (fit_default Y_scenario) S); try done; simpl; lia.
Defined.

(** ** The two notebooks *)

Lemma integer_ratings_scenario : integer_ratings Y_scenario.
Proof.
  unfold integer_ratings, Y_scenario.
  repeat (apply Forall_cons; split; [eexists; split; [reflexivity|done]|]).
  apply Forall_nil_2.
Qed.

Lemma integer_ratings_flat : integer_ratings Y_flat.
Proof.
  unfold integer_ratings, Y_flat.
  repeat (apply Forall_cons; split; [eexists; split; [reflexivity|done]|]).
  apply Forall_nil_2.
Qed.

(** X4.  On an array of integer ratings, small enough for float64 to add
    them without rounding, the class of [Book_NeighborhoodBaseCF.ipynb]
    computes what the class of [Bach_Paper_Testing.ipynb] computes: the
    loop of the older [fit] leaves the attributes that the vectorised
    [fit] leaves, and [pred] returns what [predict_rating] returns.  (On
    other ratings the two means of a user can differ in the last bit:
    [np.mean] and [np.bincount] add in different orders.) *)
Theorem book_class_agrees Y k0 sf b m0 (u i : nat) :
  Book.init Y k0 sf = Ok b → init Y k0 sf = Ok m0 → integer_ratings Y →
  Book.fit b = fit m0 ∧
  Book.pred (Book.fit b) u i = predict_rating (fit m0) u i.
Proof.
  intros Hb Hi _. destruct (fit_equiv Y k0 sf b Hb) as [Hfit Hi'].
  rewrite Hi in Hi'. injection Hi' as <-.
  split; [done|]. rewrite Hfit. by apply pred_predict_rating.
Qed.

Lemma book_class_agrees_witness :
  ∃ b m0, Book.init Y_scenario 40 cosine_similarity = Ok b ∧
    init Y_scenario 40 cosine_similarity = Ok m0 ∧
    Book.fit b = fit m0 ∧
    Book.pred (Book.fit b) 2 1 = predict_rating (fit m0) 2 1.
Proof.
  eexists _, _. split; [reflexivity|]. split; [reflexivity|].
  apply (book_class_agrees Y_scenario 40 cosine_similarity _ _ 2 1);
    [reflexivity|reflexivity|apply integer_ratings_scenario].
Defined.

(** ** What [fit] stores *)

Lemma Ybar_stored_iff Y shp (t s : nat) :
  is_Some (stored (tocsr (mk_coo (centered Y (user_means Y)) (col1 Y)
                                 (col0 Y) shp)) !! (t, s))
  ↔ ∃ v, (s, t, v) ∈ Y.
Proof.
  split.
  - intros [x Hx]. by apply Ybar_stored_inv in Hx.
  - intros [v Hv]. eapply Ybar_stored_rated in Hv as [c Hc]. eauto.
Qed.

(** X5.  After [fit], [Ybar] has the shape (n_items, n_users) and stores
    a value exactly at the positions (item, user) of the rated pairs (a
    centred value that is zero is stored too), all of them inside the
    shape; [mu] has [n_users] entries, the entry of a user being the mean
    of the ratings of that user (0 when there is none). *)
Theorem fit_attributes Y k0 sf m :
  fitted Y k0 sf m →
  ∃ Yb mus, Ybar m = Some Yb ∧ mu m = Some mus ∧
    shape Yb = (n_items m, n_users m) ∧
    length mus = n_users m ∧
    (∀ s, (s < n_users m)%nat → mus !! s = Some (Finite (mean_of Y s))) ∧
    (∀ t s, is_Some (stored Yb !! (t, s)) ↔ ∃ v, (s, t, v) ∈ Y) ∧
    (∀ t s, is_Some (stored Yb !! (t, s)) →
            (t < n_items m)%nat ∧ (s < n_users m)%nat).
Proof.
  intros Hfit. fitted_attrs Hfit.
  assert (nbins (col0 Y) = n_users m) as Hnb.
  { rewrite Hnu. apply nbins_max. by destruct Y. }
  exists Yb, (user_means Y). rewrite EYb.
  split; [by rewrite <- EYb|]. split; [done|]. split; [by rewrite Hnu, Hni|].
  split; [by rewrite user_means_length|]. split; [|split].
  - intros s Hs. apply user_means_lookup. by rewrite Hnb.
  - intros t s. apply Ybar_stored_iff.
  - intros t s [v Hv]%Ybar_stored_iff.
    pose proof (col0_le_max Y _ Hv). pose proof (col1_le_max Y _ Hv).
    simpl in *. lia.
Qed.

Lemma fit_attributes_witness :
  ∃ Yb mus, Ybar (fit_default Y_idle) = Some Yb ∧
    mu (fit_default Y_idle) = Some mus ∧ length mus = 3%nat ∧
    is_Some (stored Yb !! (0%nat, 2%nat)) ∧ stored Yb !! (0%nat, 1%nat) = None.
Proof.
  destruct (fit_attributes Y_idle 40 cosine_similarity (fit_default Y_idle))
    as (Yb & mus & HYb & Hmu & _ & Hlen & _ & Hst & _).
  - by apply fitted_default.
  - exists Yb, mus. repeat split; [done..| |].
    + apply Hst. exists 1. right. left.
    + apply eq_None_not_Some. intros [v Hv]%Hst. by apply unrated_idle in Hv.
Defined.

(** ** The entries of the cosine similarity array *)

Lemma rentry_unrated Y k0 sf m Yb (s t : nat) :
  fitted Y k0 sf m → Ybar m = Some Yb → (∀ v, (s, t, v) ∉ Y) →
  rentry Yb t s = 0.
Proof.
  intros Hfit HYb Hno.
  pose proof Hfit as (_ & _ & _ & _ & _ & _ & Yb' & HYb' & EYb & _)%fitted_inv.
  rewrite HYb in HYb'. injection HYb' as ->.
  rewrite EYb, rentry_Ybar. apply centered_at_nil in Hno. by rewrite Hno.
Qed.

Lemma rated_or_not (Y : ndarray) (s t : nat) :
  (∃ v, (s, t, v) ∈ Y) ∨ (∀ v, (s, t, v) ∉ Y).
Proof.
  destruct (filter (λ r, r.1 = (s, t)) Y) as [|[[u i] v] l] eqn:E.
  - right. intros v Hv.
    assert ((s, t, v) ∈ filter (λ r, r.1 = (s, t)) Y) as Hin
      by (by apply list_elem_of_filter).
    rewrite E in Hin. by apply elem_of_nil in Hin.
  - left. assert ((u, i, v) ∈ filter (λ r, r.1 = (s, t)) Y) as Hin
      by (rewrite E; left).
    apply list_elem_of_filter in Hin as [[= -> ->] Hin]. eauto.
Qed.

(** X8.  After [fit] with [cosine_similarity], two users who have no
    item in common have similarity 0. *)
Theorem similarity_without_common_item Y k0 m S (i j : nat) :
  fitted Y k0 cosine_similarity m → Sim m = Some S →
  (i < n_users m)%nat → (j < n_users m)%nat →
  (∀ t v w, (i, t, v) ∈ Y → (j, t, w) ∈ Y → False) →
  (S !! i ≫= (.!! j)) = Some (Finite 0).
Proof.
  intros Hfit HS' Hi Hj Hno.
  pose proof Hfit
    as (Yb & S' & HYb & HS & -> & Hsh & Hfin & _)%fitted_cosine.
  rewrite HS in HS'. injection HS' as <-.
  apply cosine_similarity_zero; [by apply transpose_finite|..];
    try (cbn [shape transpose]; by rewrite Hsh).
  intros t. rewrite !transpose_rentry.
  destruct (rated_or_not Y i t) as [[v Hv]|Hn].
  - right. apply (rentry_unrated Y k0 cosine_similarity m); [done..|].
    intros w Hw. by apply (Hno t v w).
  - left. by apply (rentry_unrated Y k0 cosine_similarity m).
Qed.

Lemma similarity_without_common_item_witness :
  ∃ S, Sim (fit_default Y_apart) = Some S ∧
    (S !! 0%nat ≫= (.!! 1%nat)) = Some (Finite 0).
Proof.
  example_model Y_apart. exists S. split; [done|].
  apply (similarity_without_common_item Y_apart 40 (fit_default Y_apart) S 0 1);
    [done|done|simpl; lia|simpl; lia|].
  intros t v w Hv Hw. unfold Y_apart in Hv, Hw.
  repeat (apply elem_of_cons in Hv as [[= -> ->]|Hv]);
    try (by apply elem_of_nil in Hv);
    repeat (apply elem_of_cons in Hw as [[=]|Hw]);
    by apply elem_of_nil in Hw.
Defined.

(** ** Users whose ratings are all equal *)

Lemma Rsum_constant (l : list R) c :
  Forall (λ v, v = c) l → Rsum l = INR (length l) * c.
Proof.
  induction 1 as [|v l -> _ IH]; [rewrite Rsum_nil; simpl; lra|].
  rewrite Rsum_cons, IH, length_cons, S_INR. lra.
Qed.

Lemma mean_of_constant Y (s : nat) c :
  (∀ t v, (s, t, v) ∈ Y → v = c) → ratings_of Y s ≠ [] → mean_of Y s = c.
Proof.
  intros Hc Hne. unfold mean_of.
  assert (Forall (λ v, v = c) (ratings_of Y s)) as Hall.
  { apply Forall_forall. intros v ([[u t] v'] & -> & Hin)%list_elem_of_fmap.
    apply list_elem_of_filter in Hin as [E Hin]. simpl in E. subst u.
    by apply (Hc t). }
  destruct (ratings_of Y s) as [|v l] eqn:E; [done|].
  rewrite (Rsum_constant _ c Hall).
  pose proof (INR_length_ne_0 v l). by field.
Qed.

Lemma constant_rater_scores Y k0 m S (s : nat) c :
  fitted Y k0 cosine_similarity m → Sim m = Some S →
  (s < n_users m)%nat → (∀ i v, (s, i, v) ∈ Y → v = c) →
  (∀ j, (j < n_users m)%nat → (S !! s ≫= (.!! j)) = Some (Finite 0)) ∧
  (∀ t, (t < n_items m)%nat →
        predict_rating m s t = Ok (Finite (mean_of Y s))).
Proof.
  intros Hfit HS' Hs Hc.
  pose proof Hfit
    as (Yb & S' & HYb & HS & ES & Hsh & Hfin & _ & Hds & Hfd)%fitted_cosine.
  rewrite HS in HS'. injection HS' as <-.
  pose proof Hfit
    as (_ & _ & _ & Hnu & _ & _ & Yb' & HYb' & EYb & _)%fitted_inv.
  rewrite HYb in HYb'. injection HYb' as <-.
  assert (∀ i, rentry Yb i s = 0) as Hzero.
  { intros i. rewrite EYb, rentry_Ybar. unfold centered_at.
    apply Rsum_zero. intros [[u i'] v] [E Hin]%list_elem_of_filter.
    simpl in E. injection E as -> ->. simpl.
    rewrite (mean_of_constant Y s c Hc).
    - rewrite (Hc i v Hin). lra.
    - intros E. unfold ratings_of, col2 in E. apply fmap_nil_inv in E.
      assert ((s, i, v) ∈ filter (λ r, r.1.1 = s) Y) as Hin'
        by (by apply list_elem_of_filter).
      rewrite E in Hin'. by apply elem_of_nil in Hin'. }
  assert (∀ j, (j < n_users m)%nat →
               (S' !! s ≫= (.!! j)) = Some (Finite 0)) as Hsim.
  { intros j Hj. rewrite ES.
    apply cosine_similarity_zero; [by apply transpose_finite|..];
      try (cbn [shape transpose]; by rewrite Hsh).
    intros i. left. by rewrite transpose_rentry. }
  split; [done|]. intros t Ht.
  rewrite (fitted_predict_real Y k0 cosine_similarity m Yb S' s t) by done.
  do 2 f_equal. unfold prediction.
  assert (∀ n, n ∈ neighbors S' k0 Y s t → rsim S' s n = 0) as Hn.
  { intros n [v Hv%col0_le_max]%neighbors_subseteq%raters_elem.
    simpl in Hv. unfold rsim. rewrite (sim_at_lookup S' s n (Finite 0)); [done|].
    apply Hsim. lia. }
  rewrite (Rsum_zero (λ n, rentry Yb t n * rsim S' s n))
    by (intros n Hin; rewrite (Hn n Hin); lra).
  unfold Rdiv. lra.
Qed.

(** X9.  On an array of integer ratings, small enough for float64 to add
    them without rounding, a user all of whose ratings have the same value
    [c] (a user with one rating, or with none) has centred ratings 0:
    after [fit] with [cosine_similarity] that user has similarity 0 to
    every user, itself included, and [predict_rating] returns the mean of
    the user for every item below [n_items]; the mean is [c] when the
    user has a rating.  (The mean of three ratings 0.1 is not 0.1 in
    float64, hence the integers.) *)
Theorem constant_rater Y k0 m S (s t : nat) c :
  fitted Y k0 cosine_similarity m → Sim m = Some S →
  (s < n_users m)%nat → (t < n_items m)%nat →
  integer_ratings Y →
  (∀ i v, (s, i, v) ∈ Y → v = c) →
  (∀ j, (j < n_users m)%nat → (S !! s ≫= (.!! j)) = Some (Finite 0)) ∧
  predict_rating m s t = Ok (Finite (mean_of Y s)) ∧
  (ratings_of Y s ≠ [] → mean_of Y s = c).
Proof.
  intros Hfit HS Hs Ht _ Hc.
  destruct (constant_rater_scores Y k0 m S s c Hfit HS Hs Hc) as [Hsim Hp].
  split; [done|]. split; [by apply Hp|]. by apply mean_of_constant.
Qed.

Lemma constant_rater_witness :
  predict_rating (fit_default Y_scenario) 1 0 = Ok (Finite 4).
Proof.
  example_model Y_scenario.
  destruct (constant_rater Y_scenario 40 (fit_default Y_scenario) S 1 0 4)
    as (_ & Hp & Hm); [done|done|simpl; lia|simpl; lia| | |].
  - apply integer_ratings_scenario.
  - intros i v Hin. unfold Y_scenario in Hin.
    repeat (apply elem_of_cons in Hin as [[=]|Hin]); try lra.
    by apply elem_of_nil in Hin.
  - rewrite Hp, Hm; done.
Defined.

(** ** The size of a prediction *)

Lemma Rsum_weighted_bound {A} (r w : A → R) l M :
  (∀ n, n ∈ l → Rabs (r n) <= M) →
  Rabs (Rsum ((λ n, r n * w n) <$> l)) <= M * Rsum ((λ n, Rabs (w n)) <$> l).
Proof.
  induction l as [|n l IH]; intros H.
  - rewrite !fmap_nil, !Rsum_nil, Rabs_R0. lra.
  - rewrite !fmap_cons, !Rsum_cons.
    eapply Rle_trans; [apply Rabs_triang|]. rewrite Rabs_mult.
    assert (Rabs (r n) <= M) as Hn by (apply H; left).
    specialize (IH (λ n Hn, H n (list_elem_of_further _ _ _ Hn))).
    pose proof (Rabs_pos (w n)). pose proof (Rabs_pos (r n)). nra.
Qed.

(** X10.  The prediction stays near the mean of the user: when the
    centred ratings that the raters of item [t] gave it are at most [M] in
    absolute value, [predict_rating(s, t)] differs from [mu[s]] by at most
    [M] (real-valued similarity array of shape (n_users, n_users)). *)
Theorem prediction_within_bound Y k0 sf m Yb S (s t : nat) M :
  fitted Y k0 sf m → Ybar m = Some Yb → Sim m = Some S →
  dense_shape S (n_users m) → finite_dense S →
  (s < n_users m)%nat → (t < n_items m)%nat → 0 <= M →
  (∀ n, n ∈ raters Y t → Rabs (rentry Yb t n) <= M) →
  ∃ p, predict_rating m s t = Ok (Finite p) ∧ Rabs (p - mean_of Y s) <= M.
Proof.
  intros Hfit HYb HS Hds Hfd Hs Ht HM Hb.
  rewrite (fitted_predict_real Y k0 sf m Yb S s t) by done.
  eexists. split; [done|]. unfold prediction.
  set (N := neighbors S k0 Y s t).
  pose proof (Rsum_weighted_bound (rentry Yb t) (rsim S s) N M) as Hw.
  pose proof (Rsum_abs_nonneg (rsim S s) N) as Hpos.
  set (num := Rsum ((λ n, rentry Yb t n * rsim S s n) <$> N)) in *.
  set (den := Rsum ((λ n, Rabs (rsim S s n)) <$> N)) in *.
  pose proof eps_pos as Heps.
  replace (num / (den + / 10 ^ 8) + mean_of Y s - mean_of Y s)
    with (num / (den + / 10 ^ 8)) by lra.
  unfold Rdiv. rewrite Rabs_mult, Rabs_inv.
  rewrite (Rabs_right (den + / 10 ^ 8)) by lra.
  apply (Rmult_le_reg_r (den + / 10 ^ 8)); [lra|].
  rewrite Rmult_assoc, Rinv_l by lra.
  assert (Rabs num <= M * den); [|nra].
  apply Hw. intros n Hn. apply Hb. by apply neighbors_subseteq in Hn.
Qed.

Lemma prediction_within_bound_witness :
  ∃ p, predict_rating (fit_default Y_scenario) 2 1 = Ok (Finite p) ∧
       Rabs (p - mean_of Y_scenario 2) <= 1.
Proof.
  assert (fitted Y_scenario 40 cosine_similarity (fit_default Y_scenario))
    as Hfit by (by apply fitted_default).
  destruct (fitted_cosine _ _ _ Hfit)
    as (Yb & S & HYb & HS & _ & _ & Hfin & _ & Hds & Hfd).
  destruct (scenario_Ybar Yb HYb) as (_ & E10 & E1).
  apply (prediction_within_bound Y_scenario 40 cosine_similarity
           (fit_default Y_scenario) Yb S 2 1 1);
    [done|done|done|done|done|simpl; lia|simpl; lia|lra|].
  intros n Hn. change (raters Y_scenario 1) with [0%nat; 1%nat] in Hn.
  apply elem_of_cons in Hn as [->|Hn].
  - rewrite (entry_rentry Yb 1 0 Hfin) in E10. injection E10 as ->.
    rewrite Rabs_left; lra.
  - apply elem_of_cons in Hn as [->|Hn]; [|by apply elem_of_nil in Hn].
    specialize (E1 1%nat). rewrite (entry_rentry Yb 1 1 Hfin) in E1.
    injection E1 as ->. rewrite Rabs_R0. lra.
Defined.

(** ** The parameter [k] *)

Lemma take__length {A} (l : list A) idx xs :
  take_ l idx = Ok xs → length xs = length idx.
Proof.
  revert xs. induction idx as [|i idx IH]; intros xs; csimpl.
  - by intros [= <-].
  - destruct (getitem l i); [|done]. csimpl.
    destruct (take_ l idx) as [ys|]; [|done]. csimpl.
    intros [= <-]. simpl. f_equal. by apply IH.
Qed.

Lemma slice_last_whole {A} n (l : list A) :
  n = 0%nat ∨ (length l ≤ n)%nat → slice_last n l = l.
Proof. intros [->|Hn]; [done|by apply slice_last_all]. Qed.

(** X11.  The parameter [k] matters only below the number of raters:
    two models fitted on the same ratings, each with [k = 0] (the slice
    [[-0:]] keeps everything) or with [k] at least the number of rating
    rows of item [t], give the same result for [predict_rating(s, t)],
    value or exception. *)
Theorem k_beyond_raters Y k1 k2 sf m1 m2 (s t : nat) :
  fitted Y k1 sf m1 → fitted Y k2 sf m2 →
  k1 = 0%nat ∨ (length (raters Y t) ≤ k1)%nat →
  k2 = 0%nat ∨ (length (raters Y t) ≤ k2)%nat →
  predict_rating m1 s t = predict_rating m2 s t.
Proof.
  intros (_ & HY1 & Hk1 & _ & _ & Hmu1 & Yb1 & HYb1 & -> & HS1)%fitted_inv
         (_ & HY2 & Hk2 & _ & _ & Hmu2 & Yb2 & HYb2 & -> & HS2)%fitted_inv
         H1 H2.
  unfold predict_rating.
  rewrite HY1, HY2, HS1, HS2, HYb1, HYb2, Hmu1, Hmu2, Hk1, Hk2.
  rewrite where_raters. csimpl.
  destruct (getitem (sf _ _) s) as [row|]; [|reflexivity]. csimpl.
  destruct (take_ row (raters Y t)) as [sims|] eqn:E; [|reflexivity]. csimpl.
  apply take__length in E.
  assert (length (argsort sims) = length (raters Y t)) as Hlen
    by (by rewrite argsort_perm, length_seq).
  rewrite !slice_last_whole by (by rewrite Hlen). done.
Qed.

Lemma k_beyond_raters_witness :
  predict_rating (fit_default Y_scenario) 2 1 =
  predict_rating
    (fit {| Y_data := Y_scenario; k := 0; sim_func := cosine_similarity;
            Ybar := None; n_users := 3; n_items := 2; mu := None;
            Sim := None |}) 2 1.
Proof.
  apply (k_beyond_raters Y_scenario 40 0 cosine_similarity).
  - by apply fitted_default.
  - left. eexists. split; reflexivity.
  - right. simpl. lia.
  - by left.
Defined.

(** ** The order of the rating rows *)

Lemma Rsum_perm l1 l2 : l1 ≡ₚ l2 → Rsum l1 = Rsum l2.
Proof.
  induction 1 as [|x l1 l2 _ IH|x y l|l1 l2 l3 _ IH1 _ IH2];
    rewrite ?Rsum_cons; [done|rewrite IH; done|lra|congruence].
Qed.

Lemma nbins_perm x y : x ≡ₚ y → nbins x = nbins y.
Proof.
  intros H. unfold nbins. destruct x as [|a x], y as [|b y]; [done|..].
  - by apply Permutation_nil_cons in H.
  - symmetry in H. by apply Permutation_nil_cons in H.
  - by rewrite H.
Qed.

Lemma mean_of_perm Y Y' (u : nat) : Y ≡ₚ Y' → mean_of Y u = mean_of Y' u.
Proof.
  intros H. unfold mean_of.
  assert (ratings_of Y u ≡ₚ ratings_of Y' u) as Hr
    by (unfold ratings_of, col2; by rewrite H).
  destruct (ratings_of Y u) as [|a x], (ratings_of Y' u) as [|b y]; [done|..].
  - by apply Permutation_nil_cons in Hr.
  - symmetry in Hr. by apply Permutation_nil_cons in Hr.
  - by rewrite (Rsum_perm _ _ Hr), (Permutation_length Hr).
Qed.

Lemma user_means_perm Y Y' : Y ≡ₚ Y' → user_means Y = user_means Y'.
Proof.
  intros H. assert (nbins (col0 Y) = nbins (col0 Y')) as Hn
    by (apply nbins_perm; unfold col0; by rewrite H).
  apply list_eq. intros u.
  destruct (decide (u < nbins (col0 Y))%nat) as [Hu|Hu].
  - rewrite !user_means_lookup by (by rewrite <- ?Hn).
    by rewrite (mean_of_perm Y Y' u H).
  - rewrite !lookup_ge_None_2; [done|..]; rewrite user_means_length; lia.
Qed.

Lemma Ybar_perm Y Y' shp :
  Y ≡ₚ Y' →
  tocsr (mk_coo (centered Y (user_means Y)) (col1 Y) (col0 Y) shp)
  = tocsr (mk_coo (centered Y' (user_means Y')) (col1 Y') (col0 Y') shp).
Proof.
  intros H.
  assert (∀ A B : csr_matrix,
            shape A = shape B → stored A = stored B → A = B) as Heq.
  { intros [??] [??]; simpl; by intros -> ->. }
  apply Heq; [done|]. apply map_eq. intros [t s]. rewrite !Ybar_lookup.
  assert (centered_at Y s t ≡ₚ centered_at Y' s t) as Hc.
  { unfold centered_at. by rewrite (mean_of_perm Y Y' s H), H. }
  destruct (centered_at Y s t) as [|a x], (centered_at Y' s t) as [|b y];
    [done|..].
  - by apply Permutation_nil_cons in Hc.
  - symmetry in Hc. by apply Permutation_nil_cons in Hc.
  - by rewrite (Rsum_perm _ _ Hc).
Qed.

(** X12.  On integer ratings, small enough for float64 to add them
    without rounding, and with one row for a pair at most, [fit] does not
    depend on the order of the rating rows: models fitted on two arrays
    that are permutations of each other have the same counts, the same
    [mu], the same [Ybar] and the same similarity array.  (float64 sums of
    other ratings depend on the order of the terms.) *)
Theorem fit_ignores_row_order Y Y' k0 sf m m' :
  fitted Y k0 sf m → fitted Y' k0 sf m' → Y ≡ₚ Y' →
  integer_ratings Y → NoDup Y.*1 →
  n_users m = n_users m' ∧ n_items m = n_items m' ∧
  mu m = mu m' ∧ Ybar m = Ybar m' ∧ Sim m = Sim m'.
Proof.
  intros (_ & _ & _ & Hnu & Hni & Hmu & Yb & HYb & EYb & HS)%fitted_inv
         (_ & _ & _ & Hnu' & Hni' & Hmu' & Yb' & HYb' & EYb' & HS')%fitted_inv
         H _ _.
  assert (max_list (col0 Y) = max_list (col0 Y')) as E0
    by (unfold col0; by rewrite H).
  assert (max_list (col1 Y) = max_list (col1 Y')) as E1
    by (unfold col1; by rewrite H).
  assert (Yb = Yb') as <-.
  { rewrite EYb, EYb', E0, E1. by apply Ybar_perm. }
  rewrite Hnu, Hnu', Hni, Hni', Hmu, Hmu', HYb, HYb', HS, HS', E0, E1.
  by rewrite (user_means_perm Y Y' H).
Qed.

Lemma fit_ignores_row_order_witness :
  mu (fit_default Y_scenario) = mu (fit_default (reverse Y_scenario)) ∧
  Ybar (fit_default Y_scenario) = Ybar (fit_default (reverse Y_scenario)) ∧
  Sim (fit_default Y_scenario) = Sim (fit_default (reverse Y_scenario)).
Proof.
  apply (fit_ignores_row_order Y_scenario (reverse Y_scenario) 40
           cosine_similarity).
  - by apply fitted_default.
  - by apply fitted_default.
  - symmetry. apply reverse_Permutation.
  - apply integer_ratings_scenario.
  - apply (bool_decide_unpack _). by vm_compute.
Defined.

(** ** Recommendation lists *)

(** X14.  A list returned by [recommend] of a fitted model has no item
    twice, and when [top_k] is at least the number of unrated items it is
    a permutation of all of them. *)
Theorem recommend_no_duplicates Y k0 sf m (s K : nat) l :
  fitted Y k0 sf m → recommend m s K = Ok l →
  NoDup l ∧
  ((length (candidates Y (n_items m) s) ≤ K)%nat →
   l ≡ₚ candidates Y (n_items m) s).
Proof.
  intros Hfit. rewrite recommend_eq, (fitted_Y_data _ _ _ _ Hfit).
  destruct (predict_all m s _) as [ps|] eqn:E; [|done]. csimpl.
  intros [= <-]. apply predict_all_fst in E.
  assert (NoDup (candidates Y (n_items m) s)) as Hnd.
  { unfold candidates. apply NoDup_filter, NoDup_seq. }
  assert ((sorted_reverse snd ps).*1 ≡ₚ candidates Y (n_items m) s) as Hperm.
  { rewrite <- E. unfold sorted_reverse. by rewrite sort_by_perm. }
  split.
  - rewrite fmap_take. eapply sublist_NoDup; [|apply sublist_take].
    by rewrite Hperm.
  - intros HK. rewrite take_ge; [done|].
    rewrite <- (length_fmap fst), Hperm. done.
Qed.

Lemma recommend_no_duplicates_witness :
  NoDup [1%nat] ∧
  ((length (candidates Y_scenario 2 2) ≤ 10)%nat →
   [1%nat] ≡ₚ candidates Y_scenario 2 2).
Proof.
  apply (recommend_no_duplicates Y_scenario 40 cosine_similarity
           (fit_default Y_scenario) 2 10).
  - by apply fitted_default.
  - apply recommend_scenario.
Defined.

Lemma filter_none {A} (P : A → Prop) `{∀ x, Decision (P x)} (l : list A) :
  (∀ x, x ∈ l → ¬ P x) → filter P l = [].
Proof.
  induction l as [|x l IH]; intros HP; [done|].
  rewrite filter_cons, decide_False by (apply HP; left).
  apply IH. intros y Hy. apply HP. by right.
Qed.

Lemma filter_all {A} (P : A → Prop) `{∀ x, Decision (P x)} (l : list A) :
  (∀ x, x ∈ l → P x) → filter P l = l.
Proof.
  induction l as [|x l IH]; intros HP; [done|].
  rewrite filter_cons, decide_True by (apply HP; left).
  f_equal. apply IH. intros y Hy. apply HP. by right.
Qed.

Lemma predict_all_raise (m : uuCF) s e items :
  items ≠ [] → (∀ t, predict_rating m s t = Raise e) →
  predict_all m s items = Raise e.
Proof.
  destruct items as [|t items]; [done|]. intros _ H. csimpl. by rewrite H.
Qed.

Lemma candidates_unknown_user Y k0 sf m (s : nat) :
  fitted Y k0 sf m → (n_users m ≤ s)%nat →
  candidates Y (n_items m) s = seq 0 (n_items m).
Proof.
  intros (_ & _ & _ & Hnu & _)%fitted_inv Hs. unfold candidates.
  assert (filter (λ r, r.1.1 = s) Y = []) as ->.
  - apply filter_none. intros r Hr%col0_le_max E. lia.
  - apply filter_all. intros t _. apply not_elem_of_nil.
Qed.

Lemma recommend_raises Y k0 sf m S (s K : nat) :
  fitted Y k0 sf m → Sim m = Some S → dense_shape S (n_users m) →
  (n_users m ≤ s)%nat → recommend m s K = Raise IndexError.
Proof.
  intros Hfit HS Hds Hs.
  rewrite recommend_eq, (fitted_Y_data _ _ _ _ Hfit).
  rewrite (candidates_unknown_user Y k0 sf m s Hfit Hs).
  rewrite (predict_all_raise m s IndexError); [done| |].
  - pose proof Hfit as (_ & _ & _ & _ & Hni & _)%fitted_inv.
    rewrite Hni, Nat.add_1_r. done.
  - intros t. by apply (predict_rating_unknown_user Y k0 sf m S).
Qed.

(** X15.  For a user id that is not below [n_users], every item below
    [n_items] is a candidate and [recommend] raises IndexError, whatever
    [top_k]: the predictions are computed before the slice. *)
Theorem recommend_unknown_user Y k0 sf m S (s K : nat) :
  fitted Y k0 sf m → Sim m = Some S → dense_shape S (n_users m) →
  (n_users m ≤ s)%nat →
  candidates Y (n_items m) s = seq 0 (n_items m) ∧
  recommend m s K = Raise IndexError.
Proof.
  intros Hfit HS Hds Hs. split.
  - by apply (candidates_unknown_user Y k0 sf m).
  - by apply (recommend_raises Y k0 sf m S).
Qed.

Lemma recommend_unknown_user_witness :
  recommend (fit_default Y_scenario) 3 10 = Raise IndexError.
Proof.
  example_model Y_scenario.
  apply (recommend_unknown_user Y_scenario 40 cosine_similarity
           (fit_default Y_scenario) S 3 10); [done|done|done|simpl; lia].
Defined.

(** * Properties of the evaluation scripts *)

Lemma predict_rating_in_range Y k0 sf m S (s t : nat) :
  fitted Y k0 sf m → Sim m = Some S → dense_shape S (n_users m) →
  (s < n_users m)%nat → (t < n_items m)%nat →
  ∃ p, predict_rating m s t = Ok p.
Proof.
  intros Hfit HS Hds Hs Ht.
  destruct (fitted_predict Y k0 sf m s t Hfit)
    as (Yb & S' & _ & HS' & _ & _ & Hp).
  rewrite HS in HS'. injection HS' as <-. rewrite Hp by done. eauto.
Qed.

Lemma predict_all_returns (m : uuCF) s items :
  Forall (λ t, ∃ p, predict_rating m s t = Ok p) items →
  ∃ ps, predict_all m s items = Ok ps.
Proof.
  induction 1 as [|t items [p Hp] _ [ps IH]]; [by eexists|].
  csimpl. rewrite Hp, IH. csimpl. eauto.
Qed.

Lemma top_10_items_eq (model : uuCF) n u :
  top_10_items model n u =
  ps ← predict_all model u (candidates (Y_data model) n u);
  Ok (take 10 (sorted_reverse snd ps)).*1.
Proof.
  unfold top_10_items, candidates, col1.
  by rewrite <- (list_fmap_compose fst snd).
Qed.

(** With the item count of the model, the ranking inside
    [compute_hr_at_10] is [recommend(u, 10)]. *)
Lemma top_10_items_recommend (model : uuCF) u :
  top_10_items model (n_items model) u = recommend model u 10.
Proof. by rewrite top_10_items_eq, recommend_eq. Qed.

Lemma top_10_items_elem (model : uuCF) n u l t :
  top_10_items model n u = Ok l → t ∈ l →
  t ∈ candidates (Y_data model) n u.
Proof.
  rewrite top_10_items_eq.
  destruct (predict_all model u _) as [ps|] eqn:E; [|done]. csimpl.
  intros [= <-] Hin. apply predict_all_fst in E. rewrite <- E.
  apply list_elem_of_fmap in Hin as (p & -> & Hp%subseteq_take).
  unfold sorted_reverse in Hp. rewrite sort_by_perm in Hp.
  apply list_elem_of_fmap. eauto.
Qed.

Lemma top_10_items_returns Y k0 sf m S (n u : nat) :
  fitted Y k0 sf m → Sim m = Some S → dense_shape S (n_users m) →
  (u < n_users m)%nat → (n ≤ n_items m)%nat →
  ∃ l, top_10_items m n u = Ok l.
Proof.
  intros Hfit HS Hds Hu Hn. rewrite top_10_items_eq.
  destruct (predict_all_returns m u (candidates (Y_data m) n u)) as [ps ->].
  - apply Forall_forall. intros t [Ht _]%candidates_spec.
    apply (predict_rating_in_range Y k0 sf m S); [done..|lia].
  - csimpl. eauto.
Qed.

Lemma recommend_returns Y k0 sf m S (s : nat) :
  fitted Y k0 sf m → Sim m = Some S → dense_shape S (n_users m) →
  (s < n_users m)%nat → ∃ l, recommend m s 10 = Ok l.
Proof.
  intros Hfit HS Hds Hs. rewrite <- top_10_items_recommend.
  by apply (top_10_items_returns Y k0 sf m S).
Qed.

(** ** An empty test set *)

(** X16.  The RMSE cell, the HR@10 cell and [compute_hr_at_10] end in
    ZeroDivisionError exactly when the test set has no row, whatever the
    model: with at least one row they return a number or fail with an
    exception of the model. *)
Theorem empty_test_set (rs : uuCF) test (n : nat) :
  (RMSE rs test = Failed ZeroDivisionError ↔ test = []) ∧
  (HR_10 rs test = Failed ZeroDivisionError ↔ test = []) ∧
  (compute_hr_at_10 rs test n = Failed ZeroDivisionError ↔ test = []).
Proof.
  split; [|split].
  - split; [|by intros ->]. unfold RMSE.
    destruct (squared_error rs test _); [|done]. by destruct test.
  - split; [|by intros ->]. unfold HR_10.
    destruct (count_hits rs test 0); [|done]. by destruct test.
  - split; [|by intros ->]. unfold compute_hr_at_10.
    destruct (hr_loop rs test n _ 0); [|done].
    destruct (remove_dups (col0 test)) as [|u us] eqn:E; [|done]. intros _.
    destruct test as [|row test]; [done|].
    assert (row.1.1 ∈ remove_dups (col0 (row :: test))) as Hin
      by (apply elem_of_remove_dups; left).
    rewrite E in Hin. by apply elem_of_nil in Hin.
Qed.

(** ** The RMSE loop *)

Lemma squared_error_raise Y k0 sf m S test SE :
  fitted Y k0 sf m → Sim m = Some S → dense_shape S (n_users m) →
  Exists (λ row, (n_users m ≤ row.1.1)%nat ∨ (n_items m ≤ row.1.2)%nat) test →
  squared_error m test SE = Raise IndexError.
Proof.
  intros Hfit HS Hds Hex. revert SE.
  induction test as [|row test IH]; intros SE; [by apply Exists_nil in Hex|].
  cbn [squared_error].
  destruct (decide (row.1.1 < n_users m)%nat) as [Hu|Hu].
  - destruct (decide (row.1.2 < n_items m)%nat) as [Hi|Hi].
    + destruct (predict_rating_in_range Y k0 sf m S _ _ Hfit HS Hds Hu Hi)
        as [p ->].
      csimpl. apply IH. apply Exists_cons in Hex as [[?|?]|Hex]; [lia..|done].
    + rewrite (predict_rating_out_of_range Y k0 sf m S); [done..|lia].
  - rewrite (predict_rating_unknown_user Y k0 sf m S); [done..|lia].
Qed.

(** X17.  The RMSE loop does not skip a test row it cannot predict: when
    some test row has a user id not below [n_users] or an item id not
    below [n_items], the cell ends in IndexError. *)
Theorem RMSE_index_error Y k0 sf m S test :
  fitted Y k0 sf m → Sim m = Some S → dense_shape S (n_users m) →
  Exists (λ row, (n_users m ≤ row.1.1)%nat ∨ (n_items m ≤ row.1.2)%nat) test →
  RMSE m test = Failed (ModelError IndexError).
Proof.
  intros Hfit HS Hds Hex. unfold RMSE.
  by rewrite (squared_error_raise Y k0 sf m S).
Qed.

Lemma RMSE_index_error_witness :
  RMSE (fit_default Y_scenario) [(2%nat, 1%nat, 3); (0%nat, 2%nat, 4)]
  = Failed (ModelError IndexError).
Proof.
  example_model Y_scenario.
  apply (RMSE_index_error Y_scenario 40 cosine_similarity
           (fit_default Y_scenario) S); [done..|].
  apply Exists_cons_tl, Exists_cons_hd. right. simpl. lia.
Defined.

(** ** The HR@10 loop *)

Lemma count_hits_bound (rs : uuCF) test (hits : nat) :
  Forall (λ row, ∃ l, recommend rs row.1.1 10 = Ok l) test →
  ∃ hits', count_hits rs test hits = Ok hits' ∧ (hits ≤ hits')%nat ∧
    (hits' ≤ hits +
       length (filter (λ row, row.1.2 ∈ candidates (Y_data rs) (n_items rs)
                                          row.1.1) test))%nat.
Proof.
  intros H. revert hits. induction H as [|row test [l Hl] _ IH]; intros hits.
  - exists hits. cbn [count_hits]. rewrite filter_nil. simpl.
    split; [done|lia].
  - cbn [count_hits]. rewrite Hl. csimpl. rewrite filter_cons.
    destruct (decide (row.1.2 ∈ l)) as [Hin|Hin].
    + apply (recommend_elem rs _ _ _ _ Hl) in Hin.
      rewrite decide_True by done.
      destruct (IH (S hits)) as (h & -> & ? & ?). exists h.
      split; [done|]. rewrite length_cons. lia.
    + destruct (IH hits) as (h & -> & ? & ?). exists h.
      split; [done|]. case_decide; rewrite ?length_cons; lia.
Qed.

Lemma hit_ratio_bounds (hits n : nat) :
  (hits ≤ n)%nat → (0 < n)%nat → 0 <= INR hits / INR n <= 1.
Proof.
  intros Hle Hn. apply lt_INR in Hn. apply le_INR in Hle. simpl in Hn.
  pose proof (pos_INR hits). split.
  - apply Rmult_le_pos; [done|]. apply Rlt_le. by apply Rinv_0_lt_compat.
  - apply (Rmult_le_reg_r (INR n)); [done|].
    unfold Rdiv. rewrite Rmult_assoc, Rinv_l by lra. lra.
Qed.

(** X19.  On a test set with at least one row, all user ids below
    [n_users], the HR@10 cell returns [hits / n] with [hits] at most the
    number of test rows whose item is below [n_items] and not rated by
    the user in the training data; the result lies between 0 and 1.  A
    test item outside [range(n_items)] raises nothing here. *)
Theorem HR_10_value Y k0 sf m S test :
  fitted Y k0 sf m → Sim m = Some S → dense_shape S (n_users m) →
  test ≠ [] → Forall (λ row, (row.1.1 < n_users m)%nat) test →
  ∃ hits : nat,
    HR_10 m test = Done (Finite (INR hits / INR (length test))) ∧
    (hits ≤ length (filter (λ row, row.1.2 ∈ candidates Y (n_items m)
                                                 row.1.1) test))%nat ∧
    0 <= INR hits / INR (length test) <= 1.
Proof.
  intros Hfit HS Hds Hne Hu.
  destruct (count_hits_bound m test 0) as (hits & Hc & _ & Hb).
  { eapply Forall_impl; [exact Hu|]. intros row Hrow.
    by apply (recommend_returns Y k0 sf m S). }
  rewrite (fitted_Y_data _ _ _ _ Hfit) in Hb.
  exists hits. unfold HR_10. rewrite Hc.
  destruct test as [|row test']; [done|]. split; [done|]. split; [lia|].
  apply hit_ratio_bounds; [|rewrite length_cons; lia].
  etrans; [exact Hb|]. apply length_filter.
Qed.

Lemma HR_10_value_witness :
  ∃ hits : nat,
    HR_10 (fit_default Y_scenario) [(2%nat, 0%nat, 1); (2%nat, 2%nat, 5)]
    = Done (Finite (INR hits / INR 2)) ∧ hits = 0%nat.
Proof.
  example_model Y_scenario.
  destruct (HR_10_value Y_scenario 40 cosine_similarity
              (fit_default Y_scenario) S
              [(2%nat, 0%nat, 1); (2%nat, 2%nat, 5)])
    as (hits & Hr & Hb & _); [done|done|done|done| |].
  - repeat (apply Forall_cons; split; [simpl; lia|]). apply Forall_nil_2.
  - exists hits. split; [done|].
    rewrite filter_cons, decide_False in Hb.
    + rewrite filter_cons, decide_False in Hb; [simpl in Hb; lia|].
      intros [Hlt _]%candidates_spec. simpl in Hlt. lia.
    + intros [_ Hno]%candidates_spec. apply (Hno 1). simpl. do 4 right. left.
Defined.

Lemma count_hits_raise Y k0 sf m S test hits :
  fitted Y k0 sf m → Sim m = Some S → dense_shape S (n_users m) →
  Exists (λ row, (n_users m ≤ row.1.1)%nat) test →
  count_hits m test hits = Raise IndexError.
Proof.
  intros Hfit HS Hds Hex. revert hits.
  induction test as [|row test IH]; intros hits; [by apply Exists_nil in Hex|].
  cbn [count_hits].
  destruct (decide (row.1.1 < n_users m)%nat) as [Hu|Hu].
  - destruct (recommend_returns Y k0 sf m S _ Hfit HS Hds Hu) as [l ->].
    csimpl. apply IH. apply Exists_cons in Hex as [?|Hex]; [lia|done].
  - rewrite (recommend_raises Y k0 sf m S); [done..|lia].
Qed.

(** X20.  The HR@10 cell ends in IndexError when some test row has a user
    id that is not below [n_users]. *)
Theorem HR_10_index_error Y k0 sf m S test :
  fitted Y k0 sf m → Sim m = Some S → dense_shape S (n_users m) →
  Exists (λ row, (n_users m ≤ row.1.1)%nat) test →
  HR_10 m test = Failed (ModelError IndexError).
Proof.
  intros Hfit HS Hds Hex. unfold HR_10.
  by rewrite (count_hits_raise Y k0 sf m S).
Qed.

Lemma HR_10_index_error_witness :
  HR_10 (fit_default Y_scenario) [(2%nat, 1%nat, 3); (3%nat, 0%nat, 4)]
  = Failed (ModelError IndexError).
Proof.
  example_model Y_scenario.
  apply (HR_10_index_error Y_scenario 40 cosine_similarity
           (fit_default Y_scenario) S); [done..|].
  apply Exists_cons_tl, Exists_cons_hd. simpl. lia.
Defined.

(** ** [compute_hr_at_10] *)

Lemma StronglySorted_reverse {A} (R : relation A) l :
  StronglySorted R l → StronglySorted (flip R) (reverse l).
Proof.
  induction 1 as [|x l Hs IH Hx]; [constructor|].
  rewrite reverse_cons. apply StronglySorted_app. split; [|split].
  - intros y z Hy Hz%list_elem_of_singleton. subst z.
    apply (proj1 (elem_of_reverse y l)) in Hy.
    rewrite Forall_forall in Hx. by apply Hx.
  - done.
  - repeat constructor.
Qed.

(** X21.  [compute_hr_at_10] looks at no more than ten test items of a
    user: all of them when there are at most ten, otherwise exactly ten of
    them, such that every item left out has an id no larger than the ids
    kept. *)
Theorem items_tested_largest_ids test (u : nat) :
  (length (items_tested test u) ≤ 10)%nat ∧
  (10 < length (col1 (filter (λ r, r.1.1 = u) test)) →
   length (items_tested test u) = 10)%nat ∧
  (length (col1 (filter (λ r, r.1.1 = u) test)) ≤ 10 →
   items_tested test u = col1 (filter (λ r, r.1.1 = u) test))%nat ∧
  items_tested test u ⊆ col1 (filter (λ r, r.1.1 = u) test) ∧
  (∀ a b, a ∈ items_tested test u →
          b ∈ col1 (filter (λ r, r.1.1 = u) test) →
          b ∉ items_tested test u → (b ≤ a)%nat).
Proof.
  unfold items_tested. set (items := col1 (filter (λ r, r.1.1 = u) test)).
  destruct (decide (10 < length items)%nat) as [Hlt|Hle].
  - set (L := reverse (sort_by Nat.leb items)).
    assert (L ≡ₚ items) as Hperm
      by (unfold L; by rewrite reverse_Permutation, sort_by_perm).
    assert (StronglySorted (flip (λ a b, Nat.leb a b = true)) L) as Hs.
    { apply StronglySorted_reverse, (sort_by_sorted _ (λ _, True)).
      - intros x y _ _. rewrite !Nat.leb_le. lia.
      - intros x y z _ _ _. rewrite !Nat.leb_le. lia.
      - by apply Forall_forall. }
    split; [rewrite length_take; lia|].
    split; [intros _; rewrite length_take, Hperm; lia|]. split; [lia|]. split.
    + intros a Ha%subseteq_take. by rewrite Hperm in Ha.
    + intros a b Ha Hb Hnot. rewrite <- Hperm in Hb.
      rewrite <- (take_drop 10 L) in Hb, Hs.
      apply elem_of_app in Hb as [Hb|Hb]; [done|].
      pose proof (StronglySorted_app_1_elem_of _ _ _ _ _ Hs Ha Hb) as Hab.
      simpl in Hab. by apply Nat.leb_le in Hab.
  - split; [lia|]. split; [lia|]. split; [done|]. split; [done|].
    by intros a b _ Hb Hnot.
Qed.

Lemma hr_loop_bound (model : uuCF) test (n : nat) us (hits : nat) :
  Forall (λ u, ∃ l, top_10_items model n u = Ok l) us →
  ∃ hits', hr_loop model test n us hits = Ok hits' ∧ (hits ≤ hits')%nat ∧
    (hits' ≤ hits +
       length (filter (λ u, Exists (λ item, item ∈ candidates (Y_data model)
                                                     n u)
                              (items_tested test u)) us))%nat.
Proof.
  intros H. revert hits. induction H as [|u us [l Hl] _ IH]; intros hits.
  - exists hits. cbn [hr_loop]. rewrite filter_nil. simpl. split; [done|lia].
  - cbn [hr_loop]. rewrite Hl. csimpl. rewrite filter_cons.
    destruct (decide (Exists (λ item, item ∈ l) (items_tested test u)))
      as [Hex|Hex].
    + rewrite decide_True.
      2:{ eapply Exists_impl; [exact Hex|]. intros item Hin.
          by apply (top_10_items_elem model n u l). }
      destruct (IH (S hits)) as (h & -> & ? & ?). exists h.
      split; [done|]. rewrite length_cons. lia.
    + destruct (IH hits) as (h & -> & ? & ?). exists h.
      split; [done|]. case_decide; rewrite ?length_cons; lia.
Qed.

Lemma items_tested_nil test (u : nat) :
  (∀ row, row ∈ test → row.1.1 ≠ u) → items_tested test u = [].
Proof.
  intros H. unfold items_tested. rewrite filter_none; [done|].
  intros row Hrow. by apply H.
Qed.

(** X22.  [compute_hr_at_10] runs over the positions 0 .. d-1 of the [d]
    distinct test users and uses each position as a user id.  With [d] at
    most [n_users] and [n_items] at most that of the model it returns
    [hits / d], between 0 and 1, where [hits] is at most the number of
    ids [u < d] that have a test item among the unrated items of [u]; when
    every user id of the test set is [d] or more, the result is 0. *)
Theorem compute_hr_at_10_positions Y k0 sf m S test (n d : nat) :
  fitted Y k0 sf m → Sim m = Some S → dense_shape S (n_users m) →
  (n ≤ n_items m)%nat → test ≠ [] →
  d = length (remove_dups (col0 test)) → (d ≤ n_users m)%nat →
  ∃ hits : nat,
    compute_hr_at_10 m test n = Done (Finite (INR hits / INR d)) ∧
    (hits ≤ length (filter (λ u, Exists (λ item, item ∈ candidates Y n u)
                                   (items_tested test u)) (seq 0 d)))%nat ∧
    0 <= INR hits / INR d <= 1 ∧
    ((∀ row, row ∈ test → (d ≤ row.1.1)%nat) → hits = 0%nat).
Proof.
  intros Hfit HS Hds Hn Hne -> Hd.
  set (users := remove_dups (col0 test)) in *.
  destruct (hr_loop_bound m test n (seq 0 (length users)) 0)
    as (hits & Hl & _ & Hb).
  { apply Forall_forall. intros u Hu%elem_of_seq.
    apply (top_10_items_returns Y k0 sf m S); [done..|lia|done]. }
  rewrite (fitted_Y_data _ _ _ _ Hfit) in Hb. simpl in Hb.
  assert (users ≠ []) as Hne'.
  { destruct test as [|row test']; [done|]. intros E.
    assert (row.1.1 ∈ users) as Hin.
    { apply elem_of_remove_dups. left. }
    rewrite E in Hin. by apply elem_of_nil in Hin. }
  exists hits. unfold compute_hr_at_10. fold users. rewrite Hl.
  destruct users as [|u0 users'] eqn:E; [done|]. rewrite <- E in *.
  split; [done|]. split; [done|]. split.
  - apply hit_ratio_bounds; [|rewrite E, length_cons; lia].
    etrans; [exact Hb|]. etrans; [apply length_filter|].
    by rewrite length_seq.
  - intros Hall. rewrite filter_none in Hb; [simpl in Hb; lia|].
    intros u Hu%elem_of_seq. rewrite items_tested_nil; [by intros ?%Exists_nil|].
    intros row Hrow%Hall. lia.
Qed.

Lemma compute_hr_at_10_positions_witness :
  compute_hr_at_10 (fit_default Y_scenario)
    [(5%nat, 1%nat, 3); (7%nat, 1%nat, 4)] 2
  = Done (Finite (INR 0 / INR 2)).
Proof.
  example_model Y_scenario.
  destruct (compute_hr_at_10_positions Y_scenario 40 cosine_similarity
              (fit_default Y_scenario) S
              [(5%nat, 1%nat, 3); (7%nat, 1%nat, 4)] 2 2)
    as (hits & Hr & _ & _ & Hz);
    [done|done|done|simpl; lia|done|reflexivity|simpl; lia|].
  rewrite Hr, Hz; [done|].
  intros row Hrow.
  repeat (apply elem_of_cons in Hrow as [->|Hrow]; [simpl; lia|]).
  by apply elem_of_nil in Hrow.
Defined.

(** A list whose elements are all in relation is left as it is. *)
Lemma sort_by_fixed {A} (le : A → A → bool) l :
  (∀ x y, x ∈ l → y ∈ l → le x y = true) → sort_by le l = l.
Proof.
  induction l as [|x l IH]; intros H; [done|].
  unfold sort_by in *. cbn [foldr]. rewrite IH.
  - destruct l as [|y l]; [done|]. cbn [insert_by].
    rewrite H; [done|left|right; left].
  - intros y z Hy Hz. apply H; by right.
Qed.

(** X23.  On an array of integer ratings, small enough for float64 to add
    them without rounding, the ten items that [compute_hr_at_10] ranks
    first for a user all of whose ratings have the same value (or who has
    none) are the ten unrated items with the smallest ids, in increasing
    order: all the predictions are equal and the sort is stable. *)
Theorem constant_rater_top_10 Y k0 m S (s : nat) c :
  fitted Y k0 cosine_similarity m → Sim m = Some S →
  (s < n_users m)%nat → integer_ratings Y →
  (∀ i v, (s, i, v) ∈ Y → v = c) →
  top_10_items m (n_items m) s = Ok (take 10 (candidates Y (n_items m) s)).
Proof.
  intros Hfit HS Hs _ Hc.
  destruct (constant_rater_scores Y k0 m S s c Hfit HS Hs Hc) as [_ Hp].
  rewrite top_10_items_eq, (fitted_Y_data _ _ _ _ Hfit).
  rewrite (predict_all_ok m s (λ _, Finite (mean_of Y s))).
  2:{ apply Forall_forall. intros t [Ht _]%candidates_spec. by apply Hp. }
  csimpl. f_equal. unfold sorted_reverse. rewrite sort_by_fixed.
  - rewrite fmap_take, <- list_fmap_compose. f_equal.
    rewrite <- (list_fmap_id (candidates _ _ _)) at 2. done.
  - intros x y (t & -> & _)%list_elem_of_fmap (t' & -> & _)%list_elem_of_fmap.
    simpl. rewrite bool_decide_eq_false_2; [done|lra].
Qed.

Lemma constant_rater_top_10_witness :
  top_10_items (fit_default Y_flat) 3 1 = Ok [0; 1]%nat.
Proof.
  example_model Y_flat.
  apply (constant_rater_top_10 Y_flat 40 (fit_default Y_flat) S 1 4);
    [done|done|simpl; lia| |].
  - apply integer_ratings_flat.
  - intros i v Hin. unfold Y_flat in Hin.
    repeat (apply elem_of_cons in Hin as [[=]|Hin]); try lra.
    by apply elem_of_nil in Hin.
Defined.

(** ** Item-item filtering: the columns exchanged *)

Lemma swap_columns_cols Y :
  col0 (swap_columns Y) = col1 Y ∧ col1 (swap_columns Y) = col0 Y ∧
  col2 (swap_columns Y) = col2 Y.
Proof.
  unfold col0, col1, col2, swap_columns.
  by rewrite <- !list_fmap_compose.
Qed.

Lemma swap_columns_elem Y (u i : nat) v :
  (i, u, v) ∈ swap_columns Y ↔ (u, i, v) ∈ Y.
Proof.
  unfold swap_columns. rewrite list_elem_of_fmap. split.
  - intros ([[u' i'] v'] & [= -> -> ->] & Hin). done.
  - intros Hin. by exists (u, i, v).
Qed.

Lemma swap_columns_filter_item Y (u : nat) :
  filter (λ r, r.1.2 = u) (swap_columns Y)
  = swap_columns (filter (λ r, r.1.1 = u) Y).
Proof.
  unfold swap_columns. induction Y as [|r Y IH]; [done|].
  rewrite fmap_cons, !filter_cons. cbn [fst snd].
  destruct (decide (r.1.1 = u)); by rewrite IH.
Qed.

Lemma swap_columns_filter_user Y (i : nat) :
  filter (λ r, r.1.1 = i) (swap_columns Y)
  = swap_columns (filter (λ r, r.1.2 = i) Y).
Proof.
  unfold swap_columns. induction Y as [|r Y IH]; [done|].
  rewrite fmap_cons, !filter_cons. cbn [fst snd].
  destruct (decide (r.1.2 = i)); by rewrite IH.
Qed.

(** X24.  Item-item filtering fits the same class on the array with the
    first two columns exchanged.  The exchange is an involution; the model
    fitted on the exchanged array has the two counts exchanged, its
    raters of a user are the items of that user, its [mu] holds the mean
    rating of every item, and its [Ybar] stores a value exactly at the
    transposed positions. *)
Theorem item_item_model Y k0 sf m m' :
  fitted Y k0 sf m → fitted (swap_columns Y) k0 sf m' →
  swap_columns (swap_columns Y) = Y ∧
  n_users m' = n_items m ∧ n_items m' = n_users m ∧
  (∀ u, raters (swap_columns Y) u = col1 (filter (λ r, r.1.1 = u) Y)) ∧
  (∀ i, ratings_of (swap_columns Y) i = col2 (filter (λ r, r.1.2 = i) Y)) ∧
  (∃ mus, mu m' = Some mus ∧
     ∀ i, (i < n_items m)%nat →
          mus !! i = Some (Finite (mean_of (swap_columns Y) i))) ∧
  (∀ Yb Yb' (u i : nat), Ybar m = Some Yb → Ybar m' = Some Yb' →
     is_Some (stored Yb' !! (u, i)) ↔ is_Some (stored Yb !! (i, u))).
Proof.
  intros (Hne & _ & _ & Hnu & Hni & _ & Yb & HYb & EYb & _)%fitted_inv
         (Hne' & _ & _ & Hnu' & Hni' & Hmu' & Yb' & HYb' & EYb' & _)%fitted_inv.
  destruct (swap_columns_cols Y) as (E0 & E1 & E2).
  rewrite E0 in Hnu'. rewrite E1 in Hni'.
  split; [|split; [lia|split; [lia|split; [|split; [|split]]]]].
  - unfold swap_columns. rewrite <- list_fmap_compose.
    rewrite <- (list_fmap_id Y) at 2. apply list_fmap_ext.
    by intros _ [[u i] v] _.
  - intros u. unfold raters.
    rewrite swap_columns_filter_item.
    by destruct (swap_columns_cols (filter (λ r, r.1.1 = u) Y)) as (-> & _).
  - intros i. unfold ratings_of.
    rewrite swap_columns_filter_user.
    by destruct (swap_columns_cols (filter (λ r, r.1.2 = i) Y))
      as (_ & _ & ->).
  - exists (user_means (swap_columns Y)). split; [done|]. intros i Hi.
    apply user_means_lookup. rewrite E0, nbins_max; [lia|].
    unfold col1. by destruct Y.
  - intros Yb0 Yb0' u i HYb0 HYb0'.
    rewrite HYb in HYb0. injection HYb0 as <-.
    rewrite HYb' in HYb0'. injection HYb0' as <-.
    rewrite EYb, EYb', !Ybar_stored_iff.
    split; intros [v Hv]; exists v; by apply swap_columns_elem.
Qed.

Lemma item_item_model_witness :
  n_users (fit_default (swap_columns Y_scenario)) = 2%nat ∧
  n_items (fit_default (swap_columns Y_scenario)) = 3%nat ∧
  raters (swap_columns Y_scenario) 0 = [0; 1]%nat.
Proof.
  destruct (item_item_model Y_scenario 40 cosine_similarity
              (fit_default Y_scenario)
              (fit_default (swap_columns Y_scenario)))
    as (_ & Hu & Hi & Hr & _).
  - by apply fitted_default.
  - by apply fitted_default.
  - rewrite Hu, Hi, Hr. done.
Defined.
